(** * mindgen: collapsible, force-directed mind map (mindgen.js)

    A shallow embedding of the tree model, the collapse / expand-one-level
    operations, the flattening performed at render time, the box collision
    force, option resolution, the listeners and the renders of
    [mindgen.js], and of the conversion of a parsed list into a tree of
    [script.js], together with the properties the specification states
    about them and further properties of the code.

    Conventions.
    - A JavaScript field that may be [undefined] is an [option]; [None] is
      "absent".  An array is a [list].  Truthiness of an array field is
      presence: the empty array is truthy, as in JavaScript.
    - Objects of the data tree are not shared (the tree is built by
      [Array.map] over parsed list items), so in-place mutation of a
      subtree is modelled by rebuilding that subtree; a node of the tree is
      identified by its path from the root.
    - Numbers are exact rationals ([Q]); rounding of IEEE doubles and the
      values NaN and infinity are outside the model. *)

From Stdlib Require Import QArith Qabs Lqa.
From stdpp Require Import list strings gmap pretty.

Set Default Proof Using "Type".

(** ** The data tree *)

(** [Node: { id?: string, text: string, pinned?: boolean, children?: Node[] }],
    with the collapsed subtrees kept on [_children].  [pinned] is only ever
    tested for truthiness, so an absent flag is [false]. *)
#[local] Unset Elimination Schemes.
Inductive Node : Type := mkNode {
  id : option string;
  text : string;
  pinned : bool;
  children : option (list Node);
  _children : option (list Node)
}.
#[local] Set Elimination Schemes.

(** The array held by an optional field, [[]] when the field is absent. *)
Definition arr (f : option (list Node)) : list Node := default [] f.

(** ** Collapse and expand (mindgen.js, [collapse] and [expandOne]) *)

(** [function collapse(d) { if (!d.children) return;
                            d._children = d.children;
                            d.children = undefined; }] *)
Definition collapse (d : Node) : Node :=
  match children d with
  | None => d
  | Some cs => mkNode (id d) (text d) (pinned d) None (Some cs)
  end.

(** The body of the [forEach] callback of [expandOne]:
    [if (child.children) { child._children = child.children;
                           child.children = undefined; }] *)
Definition recollapse (child : Node) : Node :=
  match children child with
  | Some cs => mkNode (id child) (text child) (pinned child) None (Some cs)
  | None => child
  end.

(** [function expandOne(d) { if (!d._children) return;
                             d.children = d._children;
                             d._children = undefined;
                             d.children.forEach((child) => { ... }); }] *)
Definition expandOne (d : Node) : Node :=
  match _children d with
  | None => d
  | Some hs => mkNode (id d) (text d) (pinned d) (Some (recollapse <$> hs)) None
  end.

(** [hasChildren(n)] and [isCollapsed(n)], on the data of a rendered node. *)
Definition hasChildren (d : Node) : bool :=
  match children d with
  | Some (_ :: _) => true
  | _ => false
  end.

Definition isCollapsed (d : Node) : bool :=
  match children d, _children d with
  | None, Some (_ :: _) => true
  | _, _ => false
  end.

(** ** Flattening at render time (mindgen.js, step 3)

    [const root = d3.hierarchy(hierarchyData);
     const nodes = root.descendants();
     const links = root.links();]

    The three calls are made by [mindgen]; the functions themselves belong
    to d3-hierarchy, a library loaded by the page, which is not part of
    the sources.  They are modelled here as the specification describes the
    tree flattener (section 4.1, and the SimNode and SimLink of section 3)
    and as the library documents them: [d3.hierarchy] wraps every datum
    reachable through the default children accessor [d => d.children] (an
    absent or empty array gives a wrapper without children), recording
    [data], [depth] and [parent]; [descendants] lists the wrappers starting
    with the root, every wrapper after its parent (the library goes
    breadth-first, as is done here); [links] gives one [{source:
    node.parent, target: node}] for every wrapper other than the root, in
    the same order. *)

(** Modelled from the spec: the node objects made by [d3.hierarchy], which
    is missing from the sources.  A wrapper holds its datum, its depth and
    its parent wrapper.  [path] is the trail of child indices leading from
    the root to the wrapped datum; it stands for the identity of the
    wrapper. *)
#[local] Unset Elimination Schemes.
Inductive HNode : Type := mkHNode {
  data : Node;
  depth : nat;
  path : list nat;
  parent : option HNode
}.
#[local] Set Elimination Schemes.

Record SimLink : Type := mkSimLink { source : HNode; target : HNode }.

(** Level-wise concatenation: the levels of two sibling subtrees, joined
    level by level, left sibling first. *)
Fixpoint zip_app {A} (xs ys : list (list A)) : list (list A) :=
  match xs, ys with
  | [], _ => ys
  | _, [] => xs
  | x :: xs', y :: ys' => (x ++ y) :: zip_app xs' ys'
  end.

(** Modelled from the spec: the traversal of [d3.hierarchy], which is
    missing from the sources.  The wrappers below (and including) a datum,
    level by level, following [children] only. *)
Fixpoint levels (par : option HNode) (p : list nat) (d : Node) {struct d}
    : list (list HNode) :=
  let me := mkHNode d (length p) p par in
  [me] ::
  match children d with
  | None => []
  | Some cs =>
      (fix go (i : nat) (cs : list Node) {struct cs} : list (list HNode) :=
         match cs with
         | [] => []
         | c :: cs' => zip_app (levels (Some me) (p ++ [i]) c) (go (S i) cs')
         end) 0 cs
  end.

(** The loop of [levels] over a children array, from index [i] on. *)
Fixpoint levels_from (me : HNode) (p : list nat) (i : nat) (cs : list Node)
    : list (list HNode) :=
  match cs with
  | [] => []
  | c :: cs' => zip_app (levels (Some me) (p ++ [i]) c) (levels_from me p (S i) cs')
  end.

(** The same wrappers, as a relation: [wraps par p d h] when [h] is the
    wrapper of [d] itself, made at position [p] with parent [par], or a
    wrapper made below one of the entries of [d.children]. *)
Inductive wraps : option HNode → list nat → Node → HNode → Prop :=
  | wraps_here par p d : wraps par p d (mkHNode d (length p) p par)
  | wraps_child par p d k c h :
      arr (children d) !! k = Some c →
      wraps (Some (mkHNode d (length p) p par)) (p ++ [k]) c h →
      wraps par p d h.

(** Modelled from the spec: [d3.hierarchy(data).descendants()], missing
    from the sources; the wrappers in breadth-first order, root first. *)
Definition descendants (root : Node) : list HNode :=
  concat (levels None [] root).

(** Modelled from the spec: [d3.hierarchy(data).links()], missing from
    the sources; one link from its parent to every wrapper but the root. *)
Definition links (root : Node) : list SimLink :=
  omap (λ n, match parent n with
             | Some p => Some (mkSimLink p n)
             | None => None
             end) (descendants root).

(** *** Positions in the data tree

    A node of the data tree is reached from the root by steps into
    [children] or into [_children]. *)
Inductive step : Type := Child (i : nat) | Hidden (i : nat).

Fixpoint subtree (d : Node) (p : list step) : option Node :=
  match p with
  | [] => Some d
  | Child i :: q => c ← arr (children d) !! i; subtree c q
  | Hidden i :: q => c ← arr (_children d) !! i; subtree c q
  end.

(** The datum reached through [children] only. *)
Fixpoint node_at (d : Node) (p : list nat) : option Node :=
  match p with
  | [] => Some d
  | i :: q => c ← arr (children d) !! i; node_at c q
  end.

(** A position of the tree is visible when the flattening holds a wrapper
    for it. *)
Definition visible (root : Node) (p : list step) : Prop :=
  ∃ h, h ∈ descendants root ∧ Child <$> path h = p.

(** *** The invariant of the data model

    At most one of [children] / [_children] is present on a node; [inv]
    asks it of every node of the tree, shown or hidden. *)
Definition inv_node (d : Node) : Prop :=
  children d = None ∨ _children d = None.

Fixpoint inv (d : Node) : Prop :=
  let all := fix all (l : list Node) : Prop :=
    match l with [] => True | c :: l' => inv c ∧ all l' end in
  inv_node d ∧
  match children d with Some cs => all cs | None => True end ∧
  match _children d with Some hs => all hs | None => True end.

(** The subtree below a node regardless of its collapse state: what a node
    owns, whichever field holds it. *)
#[local] Unset Elimination Schemes.
Inductive Skeleton : Type :=
  Sk (i : option string) (t : string) (p : bool) (kids : list Skeleton).
#[local] Set Elimination Schemes.

Fixpoint skeleton (d : Node) : Skeleton :=
  let go := fix go (l : list Node) : list Skeleton :=
    match l with [] => [] | c :: l' => skeleton c :: go l' end in
  Sk (id d) (text d) (pinned d)
     (match children d with Some cs => go cs | None => [] end ++
      match _children d with Some hs => go hs | None => [] end).

(** ** Numbers

    JavaScript numbers are modelled by exact rationals. *)

Definition Qlt_bool (a b : Q) : bool := negb (Qle_bool b a).

(** [v || e] on numbers: [e] when [v] is zero. *)
Definition Qor (v e : Q) : Q := if Qeq_bool v 0 then e else v.

(** [Math.sign] *)
Definition Qsign (v : Q) : Q :=
  if Qlt_bool 0 v then 1%Q else if Qlt_bool v 0 then (-1)%Q else 0%Q.

(** ** Simulation nodes

    [d3.forceSimulation(nodes)] works on the wrappers returned by
    [descendants], to which mindgen adds [id], [x], [y], [fx], [fy].
    [data] is a reference into the data tree (the child-index path of the
    datum), because the handlers write through it. *)
Module Sim.
Record node : Type := mk {
  data : list nat;
  id : string;
  x : Q;
  y : Q;
  fx : option Q;
  fy : option Q
}.
End Sim.

(** The measured size of a node, [{ w: rect.width, h: rect.height }]. *)
Record Box : Type := mkBox { w : Q; h : Q }.

(** [getBoundingClientRect()] of an element. *)
Record Rect : Type := mkRect { left : Q; top : Q; width : Q; height : Q }.

(** Results of code that may throw. *)
Inductive result (A : Type) : Type :=
  | Ok (a : A)
  | TypeError.
Arguments Ok {A} a.
Arguments TypeError {A}.

#[global] Instance result_bind : MBind result := λ A B k r,
  match r with Ok a => k a | TypeError => TypeError end.
#[global] Instance result_ret : MRet result := λ A a, Ok a.

(** Reading a property of [v]: throws when [v] is [undefined]. *)
Definition deref {A} (v : option A) : result A :=
  match v with Some a => Ok a | None => TypeError end.

Fixpoint foldM {A S} (f : S → A → result S) (s : S) (l : list A) : result S :=
  match l with
  | [] => Ok s
  | a :: l' => s' ← f s a; foldM f s' l'
  end.

(** ** The box collision force (mindgen.js, [boxCollide]) *)

Section boxCollide.
(** [document.getElementById(id)] followed by [getBoundingClientRect()]:
    [None] when no element has that id. *)
Variable dom : string → option Rect.
Variable padding : Q.

(** [function measure(node) { if (measured.has(node.id)) return;
      const el = document.getElementById(node.id); if (!el) return;
      const rect = el.getBoundingClientRect();
      measured.set(node.id, { w: rect.width, h: rect.height }); }] *)
Definition measure (measured : gmap string Box) (node : Sim.node)
    : gmap string Box :=
  match measured !! Sim.id node with
  | Some _ => measured
  | None =>
      match dom (Sim.id node) with
      | None => measured
      | Some rect => <[Sim.id node := mkBox (width rect) (height rect)]> measured
      end
  end.

(** The body of the inner loop of [force], for the pair of indices
    [(i, j)]. *)
Definition pair_step (alpha : Q) (measured : gmap string Box) (i j : nat)
    (simNodes : list Sim.node) : result (list Sim.node) :=
  a ← deref (simNodes !! i);
  b ← deref (simNodes !! j);
  let A := measured !! Sim.id a in
  let B := measured !! Sim.id b in
  if negb (bool_decide (is_Some A)) || negb (bool_decide (is_Some B))
  then Ok simNodes
  else
    A ← deref A;
    B ← deref B;
    let dx := Qor (Sim.x b - Sim.x a) (1 # 1000) in
    let dy := Qor (Sim.y b - Sim.y a) (1 # 1000) in
    let minX := ((w A + w B) / 2 + padding)%Q in
    let minY := ((h A + h B) / 2 + padding)%Q in
    let overlapX := (minX - Qabs dx)%Q in
    let overlapY := (minY - Qabs dy)%Q in
    if Qlt_bool 0 overlapX && Qlt_bool 0 overlapY then
      if Qlt_bool overlapX overlapY then
        let delta := (overlapX * Qsign dx * alpha)%Q in
        let a' := Sim.mk (Sim.data a) (Sim.id a) (Sim.x a - delta / 2) (Sim.y a)
                         (Sim.fx a) (Sim.fy a) in
        let b' := Sim.mk (Sim.data b) (Sim.id b) (Sim.x b + delta / 2) (Sim.y b)
                         (Sim.fx b) (Sim.fy b) in
        Ok (<[j := b']> (<[i := a']> simNodes))
      else
        let delta := (overlapY * Qsign dy * alpha)%Q in
        let a' := Sim.mk (Sim.data a) (Sim.id a) (Sim.x a) (Sim.y a - delta / 2)
                         (Sim.fx a) (Sim.fy a) in
        let b' := Sim.mk (Sim.data b) (Sim.id b) (Sim.x b) (Sim.y b + delta / 2)
                         (Sim.fx b) (Sim.fy b) in
        Ok (<[j := b']> (<[i := a']> simNodes))
    else Ok simNodes.

(** [for (let j = i + 1; j < simNodes.length; j++) { ... }] *)
Definition inner_loop (alpha : Q) (measured : gmap string Box) (i : nat)
    (simNodes : list Sim.node) : result (list Sim.node) :=
  foldM (λ ns j, pair_step alpha measured i j ns) simNodes
        (seq (S i) (length simNodes - S i)).

(** [function force(alpha) { simNodes.forEach(measure);
      for (let i = 0; i < simNodes.length; i++) { ... } }]
    The closure state is the cache [measured] and the array [simNodes]. *)
Definition force (alpha : Q) (measured : gmap string Box)
    (simNodes : list Sim.node) : gmap string Box * result (list Sim.node) :=
  let measured' := foldl measure measured simNodes in
  (measured',
   foldM (λ ns i, inner_loop alpha measured' i ns) simNodes
         (seq 0 (length simNodes))).

(** [force.initialize = (nodesArray) => { simNodes = nodesArray;
      measured.clear(); }] *)
Definition initialize (nodesArray : list Sim.node)
    : gmap string Box * list Sim.node := (∅, nodesArray).
End boxCollide.

(** ** Option resolution (mindgen.js, steps 1 and 2) *)

(** The values an option may hold. *)
Inductive jsval : Type :=
  | JNum (q : Q)
  | JStr (s : string).

(** The defaults written in [mindgen]:
    [{ container: "body", margin: 40, linkDistance: 120, linkStrength: 0.2,
       charge: -500, centerStrength: 0.1, xStrength: 0.01, yStrength: 0.01,
       alphaDecay: 0.02, velocityDecay: 0.4, boundsPadding: 10 }] *)
Definition defaults : gmap string jsval :=
  list_to_map
    [ ("container", JStr "body");
      ("margin", JNum 40);
      ("linkDistance", JNum 120);
      ("linkStrength", JNum (2 # 10));
      ("charge", JNum (-500));
      ("centerStrength", JNum (1 # 10));
      ("xStrength", JNum (1 # 100));
      ("yStrength", JNum (1 # 100));
      ("alphaDecay", JNum (2 # 100));
      ("velocityDecay", JNum (4 # 10));
      ("boundsPadding", JNum 10) ].

(** [const opts = { ...defaults, ...options };]  An object is a finite map
    from keys to values; spreading [options] last makes its keys win. *)
Definition resolve (options : gmap string jsval) : gmap string jsval :=
  options ∪ defaults.

(** The argument of [d3.select] in step 2:
    [const container = d3.select(options.container);] *)
Definition selector (options : gmap string jsval) : option jsval :=
  options !! "container".

Section container.
(** [document.querySelector]: the element a selector string designates,
    with its client width and height, if any. *)
Variable querySelector : string → option (Q * Q).

(** [d3.select(v).node()]: the selected element, [null] when the string
    matches nothing or when nothing was passed.  Only strings select
    elements of the document. *)
Definition select_node (v : option jsval) : option (Q * Q) :=
  match v with
  | Some (JStr s) => querySelector s
  | _ => None
  end.

(** [const width = container.node().clientWidth;
     const height = container.node().clientHeight;] *)
Definition container_size (options : gmap string jsval) : result (Q * Q) :=
  deref (select_node (selector options)).
End container.

(** ** Placing the nodes and starting the simulation (steps 4, 5 and 10) *)

(** What a render leaves behind for the handlers: the data tree (shared
    with the caller), the simulation nodes, the size cache of the collision
    force and the energy of the simulation. *)
Record RenderState : Type := mkState {
  root_data : Node;
  nodes : list Sim.node;
  measured : gmap string Box;
  alpha : Q;
  running : bool
}.

Section render.
Variable dom : string → option Rect.
Variable containerRect : Rect.
Variable cwidth cheight : Q.
(** The successive results of [Math.random()]. *)
Variable random : nat → Q.

(** [const id = node.data.id || `node-${index}`;] *)
Definition node_id (d : Node) (index : nat) : string :=
  match id d with
  | Some s => if bool_decide (s = "") then "node-" +:+ pretty index else s
  | None => "node-" +:+ pretty index
  end.

(** The callback of [nodes.forEach((node, index) => { ... })] in step 4;
    [k] counts the calls of [Math.random()] made so far. *)
Definition place (k : nat) (node : HNode) (index : nat) : Sim.node * nat :=
  let i := node_id (data node) index in
  let '(px, py, k') :=
    match dom i with
    | Some nodeRect =>
        ((left nodeRect - left containerRect + width nodeRect / 2)%Q,
         (top nodeRect - top containerRect + height nodeRect / 2)%Q, k)
    | None =>
        ((cwidth / 2 + (random k - (1 # 2)) * 200)%Q,
         (cheight / 2 + (random (S k) - (1 # 2)) * 200)%Q, S (S k))
    end in
  (Sim.mk (path node) i px py
          (if pinned (data node) then Some px else None)
          (if pinned (data node) then Some py else None), k').

Fixpoint place_all (k index : nat) (hs : list HNode) : list Sim.node :=
  match hs with
  | [] => []
  | node :: hs' =>
      let '(n, k') := place k node index in
      n :: place_all k' (S index) hs'
  end.

(** The state after [mindgen(hierarchyData, options)] returns: nodes
    placed, the collision force initialised with an empty cache, and
    [simulation.alpha(0.8).restart()]. *)
Definition mindgen (hierarchyData : Node) : RenderState :=
  let '(cache, simNodes) := initialize (place_all 0 0 (descendants hierarchyData)) in
  mkState hierarchyData simNodes cache (8 # 10) true.
End render.

(** ** Handlers *)

(** [n.data.pinned = v] for the datum at a child-index path. *)
Fixpoint set_pinned (p : list nat) (v : bool) (d : Node) {struct p} : Node :=
  match p with
  | [] => mkNode (id d) (text d) v (children d) (_children d)
  | i :: q =>
      match children d with
      | Some cs =>
          match cs !! i with
          | Some c =>
              mkNode (id d) (text d) (pinned d)
                     (Some (<[i := set_pinned q v c]> cs)) (_children d)
          | None => d
          end
      | None => d
      end
  end.

(** The callback of the background double-click:
    [(n) => { n.data.pinned = false; n.fx = null; n.fy = null; }] *)
Definition unpin (t : Node) (n : Sim.node) : Node * Sim.node :=
  (set_pinned (Sim.data n) false t,
   Sim.mk (Sim.data n) (Sim.id n) (Sim.x n) (Sim.y n) None None).

Fixpoint forEach_unpin (t : Node) (ns : list Sim.node) : Node * list Sim.node :=
  match ns with
  | [] => (t, [])
  | n :: ns' =>
      let '(t1, n1) := unpin t n in
      let '(t2, ns2) := forEach_unpin t1 ns' in
      (t2, n1 :: ns2)
  end.

(** [container.on("dblclick", (event) => {
       const isNode = event.target.closest && event.target.closest(".node");
       if (isNode) return;
       nodes.forEach(...);
       simulation.alpha(0.4).restart(); })] *)
Definition on_container_dblclick (isNode : bool) (st : RenderState) : RenderState :=
  if isNode then st
  else
    let '(t, ns) := forEach_unpin (root_data st) (nodes st) in
    mkState t ns (measured st) (4 # 10) true.

(** The data of a simulation node, read through its reference. *)
Definition node_data (st : RenderState) (n : Sim.node) : option Node :=
  node_at (root_data st) (Sim.data n).

(** The paths of the two ends of every link. *)
Definition link_paths (root : Node) : list (list nat * list nat) :=
  (λ l, (path (source l), path (target l))) <$> links root.

(** ** Sample trees *)

Definition leaf (i : string) : Node := mkNode (Some i) i false None None.

(** A root with an expanded child [a], a collapsed child [b] and a leaf. *)
Definition sample_tree : Node :=
  mkNode (Some "root") "X" false
    (Some [ mkNode (Some "a") "A" false (Some [leaf "a1"; leaf "a2"]) None;
            mkNode (Some "b") "B" false None (Some [leaf "b1"]);
            leaf "c" ])
    None.

(** An already collapsed node holding one leaf. *)
Definition collapsed_node : Node :=
  mkNode (Some "n") "N" false None (Some [leaf "c"]).

(** A fully expanded node with a child and a grandchild. *)
Definition deep_node : Node :=
  mkNode (Some "n") "N" false
    (Some [mkNode (Some "c") "C" false (Some [leaf "g"]) None]) None.

(** No [_children] field anywhere in a tree, and nowhere below a node. *)
Fixpoint no_hidden (d : Node) : Prop :=
  let all := fix all (l : list Node) : Prop :=
    match l with [] => True | c :: l' => no_hidden c ∧ all l' end in
  _children d = None ∧
  match children d with Some cs => all cs | None => True end.

Definition no_collapse_below (n : Node) : Prop :=
  Forall no_hidden (arr (children n) ++ arr (_children n)).

(** ** Geometry of a pair of boxes *)

(** How much two boxes centred at [a] and [b] overlap along each axis,
    padding included: the required separation (half the sum of the two
    extents plus the padding) minus the distance between the centres. *)
Definition overlap_x (padding : Q) (A B : Box) (a b : Sim.node) : Q :=
  ((w A + w B) / 2 + padding - Qabs (Sim.x b - Sim.x a))%Q.

Definition overlap_y (padding : Q) (A B : Box) (a b : Sim.node) : Q :=
  ((h A + h B) / 2 + padding - Qabs (Sim.y b - Sim.y a))%Q.

(** The quantities computed by [force] for a measured pair, under the
    names they have there. *)
Definition dx (a b : Sim.node) : Q := Qor (Sim.x b - Sim.x a) (1 # 1000).
Definition dy (a b : Sim.node) : Q := Qor (Sim.y b - Sim.y a) (1 # 1000).
Definition minX (padding : Q) (A B : Box) : Q := ((w A + w B) / 2 + padding)%Q.
Definition minY (padding : Q) (A B : Box) : Q := ((h A + h B) / 2 + padding)%Q.
Definition overlapX (padding : Q) (A B : Box) (a b : Sim.node) : Q :=
  (minX padding A B - Qabs (dx a b))%Q.
Definition overlapY (padding : Q) (A B : Box) (a b : Sim.node) : Q :=
  (minY padding A B - Qabs (dy a b))%Q.

(** A node moved to a new centre. *)
Definition move_to (n : Sim.node) (px py : Q) : Sim.node :=
  Sim.mk (Sim.data n) (Sim.id n) px py (Sim.fx n) (Sim.fy n).

(** What the body of the inner loop of [force] does to a measured pair:
    the two nodes after the step. *)
Definition separate (padding alpha : Q) (A B : Box) (a b : Sim.node)
    : Sim.node * Sim.node :=
  let ox := overlapX padding A B a b in
  let oy := overlapY padding A B a b in
  if Qlt_bool 0 ox && Qlt_bool 0 oy then
    if Qlt_bool ox oy then
      (move_to a (Sim.x a - ox * Qsign (dx a b) * alpha / 2) (Sim.y a),
       move_to b (Sim.x b + ox * Qsign (dx a b) * alpha / 2) (Sim.y b))
    else
      (move_to a (Sim.x a) (Sim.y a - oy * Qsign (dy a b) * alpha / 2),
       move_to b (Sim.x b) (Sim.y b + oy * Qsign (dy a b) * alpha / 2))
  else (a, b).

(** The pairs of indices visited by the two loops of [force] on an array
    of length [n], in the order they are visited. *)
Definition pairs (n : nat) : list (nat * nat) :=
  i ← seq 0 n; (λ j, (i, j)) <$> seq (S i) (n - S i).

(** *** Sample nodes

    Three boxes of height 1000; [a] and [b] are 20 wide, [c] is 180 wide. *)
Definition sample_dom (i : string) : option Rect :=
  if bool_decide (i = "a") then Some (mkRect 0 0 20 1000)
  else if bool_decide (i = "b") then Some (mkRect 0 0 20 1000)
  else if bool_decide (i = "c") then Some (mkRect 0 0 180 1000)
  else None.

Definition sample_node (i : string) (px py : Q) : Sim.node :=
  Sim.mk [] i px py None None.


Definition two_nodes : list Sim.node :=
  [sample_node "a" 0 0; sample_node "b" 50 1].

(** Two boxes of 20 by 20 whose centres differ by 30 on both axes. *)
Definition tie_nodes : list Sim.node :=
  [sample_node "a" 0 0; sample_node "b" 30 30].

Definition tie_measured : gmap string Box :=
  <["a" := mkBox 20 20]> (<["b" := mkBox 20 20]> ∅).

(** A node whose element is not in the document, next to one that is. *)
Definition unknown_nodes : list Sim.node :=
  [sample_node "a" 0 0; sample_node "z" 1 1].

(** Every simulation node refers to a datum of the tree. *)
Definition refs_ok (st : RenderState) : Prop :=
  Forall (λ n, is_Some (node_data st n)) (nodes st).

(** A root with two pinned children, rendered in an empty 800 by 600
    container (no element exists yet, [Math.random()] returning 1/2). *)
Definition pinned_tree : Node :=
  mkNode (Some "root") "X" false
    (Some [ mkNode (Some "p") "P" true None None;
            mkNode (Some "q") "Q" true None None ])
    None.

Definition pinned_state : RenderState :=
  mindgen (λ _, None) (mkRect 0 0 800 600) 800 600 (λ _, 1 # 2) pinned_tree.

(** A root whose only child is collapsed over a pinned node, rendered in
    an empty 800 by 600 container. *)
Definition hidden_pin_tree : Node :=
  mkNode (Some "root") "X" false
    (Some [ mkNode (Some "b") "B" false None
              (Some [mkNode (Some "p") "P" true None None]) ])
    None.

Definition hidden_pin_state : RenderState :=
  mindgen (λ _, None) (mkRect 0 0 800 600) 800 600 (λ _, 1 # 2) hidden_pin_tree.

(** ** What a pass of the collision force leaves alone *)

(** Everything of a simulation node but its position. *)
Definition frame (n : Sim.node) : list nat * string * option Q * option Q :=
  (Sim.data n, Sim.id n, Sim.fx n, Sim.fy n).

(** The sums of the centres of an array of nodes. *)
Definition sum_x (ns : list Sim.node) : Q :=
  foldr (λ n acc, (Sim.x n + acc)%Q) 0%Q ns.

Definition sum_y (ns : list Sim.node) : Q :=
  foldr (λ n acc, (Sim.y n + acc)%Q) 0%Q ns.


(** Two boxes of the sample document 100 apart on x: they do not touch. *)
Definition apart_nodes : list Sim.node :=
  [sample_node "a" 0 0; sample_node "b" 100 1].


(** ** The collapse toggle (mindgen.js, step 8) *)

(** [(n) => (hasChildren(n) || isCollapsed(n) ? [n] : [])]: whether a node
    gets a toggle. *)
Definition has_toggle (d : Node) : bool := hasChildren d || isCollapsed d.

(** [.text((n) => (isCollapsed(n) ? "+" : "–"))] *)
Definition toggle_text (d : Node) : string :=
  if isCollapsed d then "+" else "–".

(** The data part of the click handler:
    [if (n.data.children) collapse(n.data); else expandOne(n.data);] *)
Definition toggle (d : Node) : Node :=
  match children d with
  | Some _ => collapse d
  | None => expandOne d
  end.

(** An in-place change [f] of the datum at a child-index path, seen from
    the root. *)
Fixpoint update_at (p : list nat) (f : Node → Node) (d : Node) {struct p} : Node :=
  match p with
  | [] => f d
  | i :: q =>
      match children d with
      | Some cs =>
          match cs !! i with
          | Some c =>
              mkNode (id d) (text d) (pinned d)
                     (Some (<[i := update_at q f c]> cs)) (_children d)
          | None => d
          end
      | None => d
      end
  end.

Section toggle_click.
Variable dom : string → option Rect.
Variable containerRect : Rect.
Variable cwidth cheight : Q.
Variable random : nat → Q.

(** The click handler of the toggle of the node at index [i] of the node
    array: the datum is collapsed or expanded in place, then
    [mindgen(root.data, opts)] renders the same root again ([dom] being the
    document at that moment). *)
Definition on_toggle_click (i : nat) (st : RenderState) : RenderState :=
  match nodes st !! i with
  | Some n =>
      mindgen dom containerRect cwidth cheight random
              (update_at (Sim.data n) toggle (root_data st))
  | None => st
  end.
End toggle_click.


(** ** Renders, elements and their listeners (mindgen.js, steps 5, 7, 10
       and the helpers)

    Every call of [mindgen] makes a node array and a simulation of its
    own.  [dragstarted], [dragended] and the double-click listener are
    closures of that call and reach its [simulation]; they are registered
    on [nodeEnter] only, that is on the elements the call creates.  An
    element that a later call finds again keeps the listeners, and with
    them the simulation, of the call that created it, while the join
    binds the node of the later call to it: the listener is called with
    that node. *)

(** A simulation: the node array it moves, the size cache of its
    collision force, [alpha], [alphaTarget] (0 when the simulation is
    made) and whether its timer runs. *)
Record Simulation : Type := mkSimulation {
  sim_nodes : list Sim.node;
  sim_measured : gmap string Box;
  sim_alpha : Q;
  sim_alphaTarget : Q;
  sim_running : bool
}.

(** The page after some calls of [mindgen] on one data tree: the tree,
    the simulations made so far (oldest first) and, for the id of every
    node element in the container, the index of the call that created the
    element.  The map holds one element per id; when two nodes of a call
    have the same id, it follows the first. *)
Record Page : Type := mkPage {
  tree : Node;
  simulations : list Simulation;
  elements : gmap string nat
}.

(** The index of the simulation of the last call. *)
Definition latest (pg : Page) : nat := pred (length (simulations pg)).

(** The node at index [j] of the node array of the last call: the data
    bound to the elements are the nodes of that array. *)
Definition bound (pg : Page) (j : nat) : option Sim.node :=
  s ← simulations pg !! latest pg; sim_nodes s !! j.

(** The energy of a simulation. *)
Definition energy (s : Simulation) : Q * Q * bool :=
  (sim_alpha s, sim_alphaTarget s, sim_running s).

(** [n.fx = fx; n.fy = fy] *)
Definition fix_at (n : Sim.node) (fx fy : option Q) : Sim.node :=
  Sim.mk (Sim.data n) (Sim.id n) (Sim.x n) (Sim.y n) fx fy.

(** A write to the node at index [j] of the array of the last call. *)
Definition set_node (j : nat) (n : Sim.node) (pg : Page) : Page :=
  mkPage (tree pg)
         (alter (λ s, mkSimulation (<[j := n]> (sim_nodes s)) (sim_measured s)
                                   (sim_alpha s) (sim_alphaTarget s)
                                   (sim_running s))
                (latest pg) (simulations pg))
         (elements pg).

(** [simulation.alpha(a)], [simulation.alphaTarget(a)] and
    [simulation.restart()] on the simulation of call [c]. *)
Definition set_alpha (c : nat) (a : Q) (pg : Page) : Page :=
  mkPage (tree pg)
         (alter (λ s, mkSimulation (sim_nodes s) (sim_measured s) a
                                   (sim_alphaTarget s) (sim_running s))
                c (simulations pg))
         (elements pg).

Definition set_alphaTarget (c : nat) (a : Q) (pg : Page) : Page :=
  mkPage (tree pg)
         (alter (λ s, mkSimulation (sim_nodes s) (sim_measured s) (sim_alpha s)
                                   a (sim_running s))
                c (simulations pg))
         (elements pg).

Definition restart (c : nat) (pg : Page) : Page :=
  mkPage (tree pg)
         (alter (λ s, mkSimulation (sim_nodes s) (sim_measured s) (sim_alpha s)
                                   (sim_alphaTarget s) true)
                c (simulations pg))
         (elements pg).

(** [n.data.pinned = v] *)
Definition set_data_pinned (n : Sim.node) (v : bool) (pg : Page) : Page :=
  mkPage (set_pinned (Sim.data n) v (tree pg)) (simulations pg) (elements pg).

(** The listeners below are those of an element created by call [c]; they
    are called with the node [n] bound to the element, the one at index
    [j] of the array of the last call (nothing happens when there is no
    such node).  A drag gesture keeps the node it started with, so the
    three drag listeners meet the same array as long as no call of
    [mindgen] falls inside the gesture. *)

(** [function dragstarted(event, n) {
       if (!event.active) simulation.alphaTarget(0.3).restart();
       n.fx = n.x; n.fy = n.y; }]
    [active] is [event.active], the number of other gestures under way. *)
Definition dragstarted (active : nat) (c j : nat) (pg : Page) : Page :=
  match bound pg j with
  | Some n =>
      let pg1 := if bool_decide (active = 0)
                 then restart c (set_alphaTarget c (3 # 10) pg) else pg in
      set_node j (fix_at n (Some (Sim.x n)) (Some (Sim.y n))) pg1
  | None => pg
  end.

(** [function dragged(event, n) { n.fx = event.x; n.fy = event.y; }] *)
Definition dragged (ex ey : Q) (j : nat) (pg : Page) : Page :=
  match bound pg j with
  | Some n => set_node j (fix_at n (Some ex) (Some ey)) pg
  | None => pg
  end.

(** [function dragended(event, n) {
       if (!event.active) simulation.alphaTarget(0);
       n.data.pinned = true; n.fx = n.x; n.fy = n.y; }] *)
Definition dragended (active : nat) (c j : nat) (pg : Page) : Page :=
  match bound pg j with
  | Some n =>
      let pg1 := if bool_decide (active = 0)
                 then set_alphaTarget c 0 pg else pg in
      set_node j (fix_at n (Some (Sim.x n)) (Some (Sim.y n)))
               (set_data_pinned n true pg1)
  | None => pg
  end.

(** [nodeEnter.on("dblclick", (event, n) => { event.stopPropagation();
       n.data.pinned = false; n.fx = null; n.fy = null;
       simulation.alpha(0.4).restart(); })] *)
Definition on_node_dblclick (c j : nat) (pg : Page) : Page :=
  match bound pg j with
  | Some n =>
      restart c (set_alpha c (4 # 10)
        (set_node j (fix_at n None None) (set_data_pinned n false pg)))
  | None => pg
  end.

(** Modelled from the spec: the keyed join of step 7,
    [container.selectAll(".node").data(nodes, (n) => n.id)] with
    [node.exit()...remove()] and [node.enter().append("div")], is code of
    the d3 library.  The elements "are reconciled into the new one via
    stable ids" and a render "must not destroy/recreate any existing
    visual element": an element whose id is the id of a node of the call
    stays (and keeps the call that created it), a node whose id has no
    element gets an element created by this call, [k], and an element
    whose id is the id of no node leaves (at once here; the source lets
    it fade for 500 ms first). *)
Definition join (k : nat) (old : gmap string nat) (ids : list string)
    : gmap string nat :=
  list_to_map ((λ i, (i, default k (old !! i))) <$> ids).

Section page.
Variable dom : string → option Rect.
Variable containerRect : Rect.
Variable cwidth cheight : Q.
Variable random : nat → Q.

(** A call [mindgen(tree, options)] on the page: a new node array and a
    new simulation, started with [alpha] 0.8, are added, the simulations
    of earlier calls are not stopped, and the elements are joined with
    the new nodes. *)
Definition render (pg : Page) : Page :=
  let st := mindgen dom containerRect cwidth cheight random (tree pg) in
  mkPage (tree pg)
         (simulations pg
          ++ [mkSimulation (nodes st) (measured st) (alpha st) 0 (running st)])
         (join (length (simulations pg)) (elements pg) (Sim.id <$> nodes st)).

(** The first call, on an empty container. *)
Definition first_render (hierarchyData : Node) : Page :=
  render (mkPage hierarchyData [] ∅).

(** The click on the toggle of the node at index [j]: the datum is
    collapsed or expanded in place and [mindgen(root.data, opts)] is
    called. *)
Definition click_toggle (j : nat) (pg : Page) : Page :=
  match bound pg j with
  | Some n =>
      render (mkPage (update_at (Sim.data n) toggle (tree pg))
                     (simulations pg) (elements pg))
  | None => pg
  end.
End page.

(** An event on the node element with id [i]: the listener is the one of
    the call that created the element, and it is called with the node
    the join has bound to the element, the first node of the last call
    with that id. *)
Definition on_element (i : string) (listener : nat → nat → Page → Page)
    (pg : Page) : Page :=
  match elements pg !! i with
  | Some c =>
      match simulations pg !! latest pg with
      | Some s =>
          match list_find (λ n, Sim.id n = i) (sim_nodes s) with
          | Some (j, _) => listener c j pg
          | None => pg
          end
      | None => pg
      end
  | None => pg
  end.

(** Every element was created by a call that has been made. *)
Definition creators_ok (pg : Page) : Prop :=
  ∀ i c, elements pg !! i = Some c → c < length (simulations pg).

(** The render of the root with two pinned children, and the page after a
    click on the toggle of its collapsed child in the tree [hidden_pin_tree]. *)
Definition pinned_page : Page :=
  first_render (λ _, None) (mkRect 0 0 800 600) 800 600 (λ _, 1 # 2) pinned_tree.

Definition expanded_page : Page :=
  click_toggle (λ _, None) (mkRect 0 0 800 600) 800 600 (λ _, 1 # 2) 1
    (first_render (λ _, None) (mkRect 0 0 800 600) 800 600 (λ _, 1 # 2)
                  hidden_pin_tree).

(** ** Simulation ticks (mindgen.js, step 9) *)

(** [Math.max] and [Math.min] of two numbers. *)
Definition Math_max (a b : Q) : Q := if Qle_bool a b then b else a.
Definition Math_min (a b : Q) : Q := if Qle_bool a b then a else b.

(** [function positionNode(n) {
       const rect = this.getBoundingClientRect();
       const halfW = rect.width / 2; const halfH = rect.height / 2;
       const pad = opts.boundsPadding;
       n.x = Math.max(halfW + pad, Math.min(width - halfW - pad, n.x));
       n.y = Math.max(halfH + pad, Math.min(height - halfH - pad, n.y));
       d3.select(this).style("left", `${n.x - halfW}px`)
                      .style("top", `${n.y - halfH}px`); }]
    [rect] is the box of the element of [n]; the result is the node and the
    [left] and [top] given to its element. *)
Definition positionNode (cwidth cheight pad : Q) (rect : Rect) (n : Sim.node)
    : Sim.node * (Q * Q) :=
  let halfW := (width rect / 2)%Q in
  let halfH := (height rect / 2)%Q in
  let nx := Math_max (halfW + pad) (Math_min (cwidth - halfW - pad) (Sim.x n)) in
  let ny := Math_max (halfH + pad) (Math_min (cheight - halfH - pad) (Sim.y n)) in
  (Sim.mk (Sim.data n) (Sim.id n) nx ny (Sim.fx n) (Sim.fy n),
   ((nx - halfW)%Q, (ny - halfH)%Q)).


(** ** Building the tree from a parsed list (script.js) *)

(** The tokens made by the markdown lexer, as far as [processListItem]
    reads them: the [type] of a token, and the fields read for that type. *)
#[local] Unset Elimination Schemes.
Inductive Token : Type :=
  | Paragraph (tokens : option (list (option string * option string)))
  | Text (text raw : option string)
  | ListTok (items : option (list Item))
  | OtherTok
with Item : Type :=
  | mkItem (tokens : option (list Token)).
#[local] Set Elimination Schemes.

(** [a || b] on strings: [b] when [a] is [undefined] or empty. *)
Definition str_or (a : option string) (b : string) : string :=
  match a with
  | Some s => if bool_decide (s = "") then b else s
  | None => b
  end.

Section processListItem.
(** [String.prototype.trim] and [marked.parseInline]. *)
Variable trim : string → string.
Variable parseInline : string → string.

(** The loop over [item.tokens] that extracts the text; an inline token
    is the pair of its [raw] and [text]. *)
Definition raw_of (ts : list Token) : string :=
  foldl (λ raw token,
           match token with
           | Paragraph (Some its) =>
               trim (String.concat ""
                       ((λ t, str_or (fst t) (str_or (snd t) "")) <$> its))
           | Text text raw' => str_or text (str_or raw' "")
           | _ => raw
           end) "" ts.

(** [function processListItem(item) { ... }], with the global
    [nodeIdCounter] passed in and returned. *)
Fixpoint processListItem (item : Item) (nodeIdCounter : nat) {struct item}
    : Node * nat :=
  match item with
  | mkItem toks =>
      let raw := match toks with Some ts => raw_of ts | None => "" end in
      let counter := S nodeIdCounter in
      let node ch :=
        mkNode (Some ("node-" +:+ pretty counter))
               (parseInline (str_or (Some raw) "Untitled")) false ch None in
      match toks with
      | None => (node None, counter)
      | Some ts =>
          (fix find (ts : list Token) : Node * nat :=
             match ts with
             | [] => (node None, counter)
             | ListTok (Some its) :: _ =>
                 let '(cs, c') :=
                   (fix map (l : list Item) (c : nat) : list Node * nat :=
                      match l with
                      | [] => ([], c)
                      | it :: l' =>
                          let '(n, c1) := processListItem it c in
                          let '(ns, c2) := map l' c1 in
                          (n :: ns, c2)
                      end) its counter in
                 (node (Some cs), c')
             | ListTok None :: _ => (node None, counter)
             | _ :: ts' => find ts'
             end) ts
      end
  end.

(** [items.map(processListItem)] *)
Fixpoint map_items (l : list Item) (c : nat) : list Node * nat :=
  match l with
  | [] => ([], c)
  | it :: l' =>
      let '(n, c1) := processListItem it c in
      let '(ns, c2) := map_items l' c1 in
      (n :: ns, c2)
  end.

(** [nodeIdCounter = 0;
     hierarchy.children = firstList.items.map(processListItem);] *)
Definition build (hierarchy : Node) (items : list Item) : Node :=
  mkNode (id hierarchy) (text hierarchy) (pinned hierarchy)
         (Some (map_items items 0).1) (_children hierarchy).
End processListItem.

(** The ids of a tree, node before children, [children] before
    [_children]. *)
Fixpoint tree_ids (d : Node) : list (option string) :=
  let go := fix go (l : list Node) : list (option string) :=
    match l with [] => [] | c :: l' => tree_ids c ++ go l' end in
  id d ::
  (match children d with Some cs => go cs | None => [] end ++
   match _children d with Some hs => go hs | None => [] end).

(** A tree as the parser makes it: nothing pinned, nothing collapsed. *)
Fixpoint fresh (d : Node) : Prop :=
  let all := fix all (l : list Node) : Prop :=
    match l with [] => True | c :: l' => fresh c ∧ all l' end in
  pinned d = false ∧ _children d = None ∧
  match children d with Some cs => all cs | None => True end.

(** The first list token of [ts]: [item.tokens.find(t => t.type === "list")]. *)
Fixpoint first_list (ts : list Token) : option (option (list Item)) :=
  match ts with
  | [] => None
  | ListTok its :: _ => Some its
  | _ :: ts' => first_list ts'
  end.


(** The ids [node-a], ..., [node-(a+n-1)]. *)
Definition ids_from (a n : nat) : list (option string) :=
  (λ k, Some ("node-" +:+ pretty k)) <$> seq a n.


(** [let hierarchy = { id: "root", text: "⭐" }] and a parsed list of two
    items, the first with a nested list of one item, the second empty. *)
Definition hierarchy0 : Node := mkNode (Some "root") "⭐" false None None.

Definition sample_items : list Item :=
  [mkItem (Some [Text (Some "A") None;
                 ListTok (Some [mkItem (Some [Text None (Some "B")])])]);
   mkItem None].


(** [same_but j pg pg']: apart from the tree, the node at index [j] of
    the array of the last call and the energies of the simulations,
    [pg'] is [pg]. *)
Definition same_but (j : nat) (pg pg' : Page) : Prop :=
  elements pg' = elements pg ∧
  length (simulations pg') = length (simulations pg) ∧
  (∀ k, k ≠ j → bound pg' k = bound pg k) ∧
  (∀ c', c' ≠ latest pg →
         sim_nodes <$> simulations pg' !! c' = sim_nodes <$> simulations pg !! c') ∧
  (∀ c', sim_measured <$> simulations pg' !! c'
         = sim_measured <$> simulations pg !! c').

(** * Properties *)

(** ** Induction over the data tree *)

(** Induction with the hypothesis available for every node stored under
    either field. *)
Lemma Node_ind' (P : Node → Prop)
    (Hnode : ∀ i t p c h,
        Forall P (arr c) → Forall P (arr h) → P (mkNode i t p c h)) :
  ∀ n, P n.
Proof.
  fix IH 1. intros [i t p c h]. apply Hnode.
  - destruct c as [l|]; [|constructor].
    induction l as [|x l IHl]; constructor; [apply IH | exact IHl].
  - destruct h as [l|]; [|constructor].
    induction l as [|x l IHl]; constructor; [apply IH | exact IHl].
Qed.

Lemma inv_unfold (d : Node) :
  inv d ↔ inv_node d ∧ Forall inv (arr (children d)) ∧ Forall inv (arr (_children d)).
Proof.
  assert (Hall : ∀ l,
    (fix all (l : list Node) : Prop :=
       match l with [] => True | c :: l' => inv c ∧ all l' end) l ↔ Forall inv l).
  { induction l as [|c l IHl]; [by split; [constructor|] |].
    rewrite Forall_cons, <- IHl. reflexivity. }
  destruct d as [i t p [cs|] [hs|]]; simpl; rewrite ?Hall;
    rewrite ?Forall_nil; tauto.
Qed.

Lemma skeleton_unfold (d : Node) :
  skeleton d =
  Sk (id d) (text d) (pinned d)
     (skeleton <$> (arr (children d) ++ arr (_children d))).
Proof.
  assert (Hgo : ∀ l,
    (fix go (l : list Node) : list Skeleton :=
       match l with [] => [] | c :: l' => skeleton c :: go l' end) l
    = skeleton <$> l).
  { induction l as [|c l IHl]; [done|]. by rewrite fmap_cons, <- IHl. }
  destruct d as [i t p [cs|] [hs|]]; simpl; rewrite ?Hgo, ?fmap_app; done.
Qed.

(** The callback of [expandOne] does to a child what [collapse] does. *)
Lemma recollapse_collapse (c : Node) : recollapse c = collapse c.
Proof. unfold recollapse, collapse. by destruct (children c). Qed.

Lemma collapse_children (d : Node) : children (collapse d) = None.
Proof. unfold collapse. by destruct (children d) eqn:E. Qed.

Lemma collapse_noop (d : Node) : children d = None → collapse d = d.
Proof. unfold collapse. by intros ->. Qed.

Lemma collapse_fields (d : Node) :
  id (collapse d) = id d ∧ text (collapse d) = text d ∧
  pinned (collapse d) = pinned d.
Proof. unfold collapse. by destruct (children d). Qed.

Lemma collapse_skeleton (d : Node) :
  inv_node d → skeleton (collapse d) = skeleton d.
Proof.
  intros Hd. unfold collapse. destruct (children d) as [cs|] eqn:Hc; [|done].
  destruct Hd as [Hd|Hd]; [congruence|].
  rewrite !skeleton_unfold. simpl. rewrite Hc, Hd. simpl.
  by rewrite app_nil_r.
Qed.

Lemma collapse_inv (d : Node) : inv d → inv (collapse d).
Proof.
  rewrite !inv_unfold. intros (Hn & Hc & Hh).
  unfold collapse. destruct (children d) as [cs|] eqn:E; [|by rewrite E].
  simpl. split_and!; [by left | constructor | done].
Qed.

Lemma expandOne_noop (d : Node) : _children d = None → expandOne d = d.
Proof. unfold expandOne. by intros ->. Qed.

Lemma expandOne_inv (d : Node) : inv d → inv (expandOne d).
Proof.
  intros Hd. unfold expandOne. destruct (_children d) as [hs|] eqn:E; [|done].
  apply inv_unfold in Hd as (Hn & Hc & Hh). rewrite E in Hh. simpl in Hh.
  apply inv_unfold. simpl. split_and!; [by right | | constructor].
  apply Forall_fmap. eapply Forall_impl; [exact Hh|].
  intros c Hc'. simpl. rewrite recollapse_collapse. by apply collapse_inv.
Qed.

Lemma expandOne_skeleton (d : Node) :
  inv_node d → Forall inv_node (arr (_children d)) →
  skeleton (expandOne d) = skeleton d.
Proof.
  intros Hd Hh. unfold expandOne.
  destruct (_children d) as [hs|] eqn:E; [|done].
  destruct Hd as [Hd|Hd]; [|congruence].
  rewrite !skeleton_unfold. simpl. rewrite Hd, E. simpl. f_equal.
  rewrite app_nil_r, <- list_fmap_compose. apply Forall_fmap_ext.
  eapply Forall_impl; [exact Hh|]. intros c Hc. simpl.
  rewrite recollapse_collapse. by apply collapse_skeleton.
Qed.

Lemma inv_inv_node (d : Node) : inv d → inv_node d.
Proof. rewrite inv_unfold. tauto. Qed.

(** ** The flattening *)

Lemma concat_zip_app {A} (xs ys : list (list A)) :
  concat (zip_app xs ys) ≡ₚ concat xs ++ concat ys.
Proof.
  revert ys. induction xs as [|x xs IH]; intros [|y ys]; simpl.
  - done.
  - done.
  - by rewrite app_nil_r.
  - rewrite IH. rewrite <- !(assoc_L (++)). f_equiv.
    rewrite !(assoc_L (++)). f_equiv. apply Permutation_app_comm.
Qed.

Lemma levels_unfold par p d :
  levels par p d =
  [mkHNode d (length p) p par]
    :: levels_from (mkHNode d (length p) p par) p 0 (arr (children d)).
Proof.
  assert (Hgo : ∀ me q cs i,
    (fix go (i : nat) (cs : list Node) {struct cs} : list (list HNode) :=
       match cs with
       | [] => []
       | c :: cs' => zip_app (levels (Some me) (q ++ [i]) c) (go (S i) cs')
       end) i cs = levels_from me q i cs).
  { intros me q cs. induction cs as [|c cs IH]; intros i; [done|].
    simpl. by rewrite IH. }
  destruct d as [i t pn [cs|] hs]; simpl; [|done]. by rewrite Hgo.
Qed.

Lemma elem_levels_from me p i cs h :
  h ∈ concat (levels_from me p i cs) ↔
  ∃ k c, cs !! k = Some c ∧ h ∈ concat (levels (Some me) (p ++ [i + k]) c).
Proof.
  revert i. induction cs as [|c cs IH]; intros i; simpl.
  - split; [by intros ?%elem_of_nil | by intros (k & c & ? & _)].
  - rewrite concat_zip_app, elem_of_app, IH. split.
    + intros [H|(k & c' & Hk & H)].
      * exists 0, c. by rewrite Nat.add_0_r.
      * exists (S k), c'. by rewrite Nat.add_succ_r.
    + intros ([|k] & c' & Hk & H); simpl in Hk.
      * left. injection Hk as <-. by rewrite Nat.add_0_r in H.
      * right. exists k, c'. by rewrite Nat.add_succ_r in H.
Qed.

Lemma elem_levels d : ∀ par p h,
  h ∈ concat (levels par p d) ↔ wraps par p d h.
Proof.
  induction d as [i t pn c hd IHc _] using Node_ind'. intros par p h.
  rewrite levels_unfold. simpl concat. rewrite elem_of_cons, elem_levels_from.
  simpl children. split.
  - intros [->|(k & c' & Hk & H)]; [constructor|].
    rewrite Forall_lookup in IHc. eapply wraps_child; [exact Hk|].
    by apply (IHc k c' Hk).
  - inversion 1 as [|? ? ? k c' ? Hk H']; subst; [by left|].
    right. exists k, c'. split; [done|].
    rewrite Forall_lookup in IHc. by apply (IHc k c' Hk).
Qed.

Lemma elem_descendants root h : h ∈ descendants root ↔ wraps None [] root h.
Proof. apply elem_levels. Qed.

Lemma wraps_sound par p d h :
  wraps par p d h →
  ∃ q, path h = p ++ q ∧ node_at d q = Some (data h) ∧
       depth h = length (path h).
Proof.
  induction 1 as [par p d|par p d k c h Hk _ (q & Hp & Hn & Hd)].
  - exists []. by rewrite app_nil_r.
  - exists (k :: q). rewrite Hp, <- (assoc_L (++)). simpl.
    rewrite Hk. simpl. by rewrite Hd, Hp, <- (assoc_L (++)).
Qed.

Lemma wraps_complete d : ∀ par p q n,
  node_at d q = Some n →
  ∃ h, wraps par p d h ∧ path h = p ++ q ∧ data h = n.
Proof.
  intros par p q. revert d par p.
  induction q as [|k q IH]; intros d par p n; simpl.
  - intros [= <-]. eexists. split; [constructor|]. by rewrite app_nil_r.
  - destruct (arr (children d) !! k) as [c|] eqn:Hk; simpl; [|done].
    intros Hn.
    destruct (IH c (Some (mkHNode d (length p) p par)) (p ++ [k]) n Hn)
      as (h & Hw & Hp & Hd).
    exists h. split_and!; [by eapply wraps_child | | done].
    by rewrite Hp, <- (assoc_L (++)).
Qed.

(** Every wrapper other than the one of the root has its parent among the
    wrappers, one step above it. *)
Lemma wraps_parent par p d h :
  wraps par p d h →
  (h = mkHNode d (length p) p par) ∨
  ∃ ph i, parent h = Some ph ∧ wraps par p d ph ∧ path h = path ph ++ [i] ∧
          arr (children (data ph)) !! i = Some (data h).
Proof.
  induction 1 as [par p d|par p d k c h Hk Hw IH]; [by left|].
  right. destruct IH as [->|(ph & i & Hpar & Hph & Hp & Hc)].
  - exists (mkHNode d (length p) p par), k. simpl. split_and!; try done.
    constructor.
  - exists ph, i. split_and!; try done. by eapply wraps_child.
Qed.

Lemma NoDup_levels d : ∀ par p, NoDup (path <$> concat (levels par p d)).
Proof.
  induction d as [i t pn c hd IHc _] using Node_ind'. intros par p.
  rewrite levels_unfold. simpl concat. rewrite fmap_cons. simpl children.
  set (me := mkHNode _ _ _ _).
  assert (Hfrom : ∀ j,
    NoDup (path <$> concat (levels_from me p j (arr c))) ∧
    ∀ h, h ∈ concat (levels_from me p j (arr c)) →
         ∃ k q, path h = p ++ (j + k) :: q).
  { induction IHc as [|x l Hx _ IHl]; intros j; simpl.
    - split; [constructor|]. by intros h ?%elem_of_nil.
    - destruct (IHl (S j)) as [Hnd Hpre].
      assert (Hx' : ∀ h, h ∈ concat (levels (Some me) (p ++ [j]) x) →
                         ∃ q, path h = p ++ j :: q).
      { intros h (q & Hq & _)%elem_levels%wraps_sound. exists q.
        by rewrite Hq, <- (assoc_L (++)). }
      split.
      + rewrite concat_zip_app, fmap_app. apply NoDup_app. split_and!.
        * apply Hx.
        * intros pth (h1 & -> & H1)%list_elem_of_fmap
                     (h2 & E & H2)%list_elem_of_fmap.
          destruct (Hx' _ H1) as (q1 & E1).
          destruct (Hpre _ H2) as (k2 & q2 & E2).
          rewrite E1, E2 in E. apply (inj (app p)) in E.
          injection E as E _. lia.
        * apply Hnd.
      + intros h. rewrite concat_zip_app, elem_of_app. intros [H|H].
        * destruct (Hx' _ H) as (q & E). exists 0, q. by rewrite Nat.add_0_r.
        * destruct (Hpre _ H) as (k & q & E). exists (S k), q.
          by rewrite Nat.add_succ_r. }
  destruct (Hfrom 0) as [Hnd Hpre]. constructor; [|done].
  intros (h & E & H)%list_elem_of_fmap. destruct (Hpre _ H) as (k & q & E').
  simpl in E. rewrite E' in E.
  apply (f_equal length) in E. rewrite length_app in E. simpl in E. lia.
Qed.

Lemma NoDup_descendants root : NoDup (path <$> descendants root).
Proof. apply NoDup_levels. Qed.

(** The first entry of the flattening is the wrapper of the root, and it
    is the only one without a parent. *)
Lemma descendants_head root :
  ∃ rest, descendants root = mkHNode root 0 [] None :: rest ∧
          ∀ h, h ∈ rest → is_Some (parent h).
Proof.
  unfold descendants. rewrite levels_unfold. simpl concat.
  eexists. split; [done|]. intros h Hh.
  assert (Hw : wraps None [] root h).
  { apply elem_levels. rewrite levels_unfold. simpl concat.
    by apply elem_of_cons; right. }
  destruct (wraps_parent _ _ _ _ Hw) as [->|(ph & i & -> & _)]; [|by eexists].
  exfalso. pose proof (NoDup_levels root None []) as Hnd.
  rewrite levels_unfold in Hnd. simpl concat in Hnd. rewrite fmap_cons in Hnd.
  apply NoDup_cons in Hnd as [Hnot _]. apply Hnot.
  apply list_elem_of_fmap. by eexists; split; [|exact Hh].
Qed.

(** *** Visible positions *)

Lemma subtree_children d q : subtree d (Child <$> q) = node_at d q.
Proof.
  revert d. induction q as [|i q IH]; intros d; simpl; [done|].
  destruct (arr (children d) !! i); simpl; [apply IH | done].
Qed.

Lemma subtree_app d q r :
  subtree d (q ++ r) = m ← subtree d q; subtree m r.
Proof.
  revert d. induction q as [|[i|i] q IH]; intros d; simpl; [done| |].
  - destruct (arr (children d) !! i); simpl; [apply IH | done].
  - destruct (arr (_children d) !! i); simpl; [apply IH | done].
Qed.

Lemma subtree_inv T : ∀ q m, inv T → subtree T q = Some m → inv m.
Proof.
  intros q. revert T. induction q as [|[i|i] q IH]; intros T m HT; simpl.
  - by intros [= <-].
  - destruct (arr (children T) !! i) as [c|] eqn:Hc; simpl; [|done].
    apply IH. apply inv_unfold in HT as (_ & HT & _).
    rewrite Forall_lookup in HT. by eapply HT.
  - destruct (arr (_children T) !! i) as [c|] eqn:Hc; simpl; [|done].
    apply IH. apply inv_unfold in HT as (_ & _ & HT).
    rewrite Forall_lookup in HT. by eapply HT.
Qed.

#[local] Instance Child_inj : Inj (=) (=) Child.
Proof. by intros i j [= ->]. Qed.

(** The flattening holds exactly the positions reached through [children]
    alone. *)
Lemma visible_iff T p :
  visible T p ↔ ∃ q, p = Child <$> q ∧ is_Some (node_at T q).
Proof.
  unfold visible. split.
  - intros (h & Hh & <-). exists (path h). split; [done|].
    apply elem_descendants, wraps_sound in Hh as (q & Hq & Hn & _).
    simpl in Hq. subst q. by eexists.
  - intros (q & -> & [n Hn]).
    destruct (wraps_complete T None [] q n Hn) as (h & Hw & Hp & _).
    exists h. split; [by apply elem_descendants|]. by rewrite Hp.
Qed.

Lemma visible_no_hidden T p i : visible T p → Hidden i ∉ p.
Proof.
  intros (q & -> & _)%visible_iff (j & [=] & _)%list_elem_of_fmap.
Qed.

Lemma fmap_Child_app q (p1 p2 : list step) :
  Child <$> q = p1 ++ p2 →
  ∃ q1 q2, q = q1 ++ q2 ∧ p1 = Child <$> q1 ∧ p2 = Child <$> q2.
Proof.
  intros E. exists (take (length p1) q), (drop (length p1) q).
  rewrite take_drop. split; [done|].
  rewrite fmap_take, fmap_drop, E.
  by rewrite take_app_length, drop_app_length.
Qed.

Lemma isCollapsed_no_children m i :
  isCollapsed m = true → arr (children m) !! i = None.
Proof.
  unfold isCollapsed. by destruct (children m) as [cs|]; [destruct (_children m)|].
Qed.

(** Nothing stored below a collapsed node is flattened. *)
Lemma collapsed_hides T q m r :
  subtree T q = Some m → isCollapsed m = true → r ≠ [] →
  ¬ visible T (q ++ r).
Proof.
  intros Hq Hm Hr (q' & E & [n Hn])%visible_iff.
  symmetry in E. apply fmap_Child_app in E as (q1 & q2 & -> & -> & ->).
  rewrite subtree_children in Hq.
  rewrite <- subtree_children, fmap_app, subtree_app, !subtree_children in Hn.
  rewrite Hq in Hn. simpl in Hn.
  destruct q2 as [|i q2]; [done|]. simpl in Hn.
  by rewrite (isCollapsed_no_children m i Hm) in Hn.
Qed.

Lemma visible_step T p n :
  inv T → subtree T p = Some n →
  visible T p ↔
  p = [] ∨ ∃ q s m, p = q ++ [s] ∧ visible T q ∧ subtree T q = Some m ∧
                    isCollapsed m = false.
Proof.
  intros HT Hp. split.
  - intros (q & -> & Hn)%visible_iff.
    destruct q as [|i q _] using rev_ind; [by left|]. right.
    rewrite subtree_children in Hp.
    rewrite <- subtree_children, fmap_app, subtree_app, subtree_children in Hp.
    destruct (node_at T q) as [m|] eqn:Hm; [|done]. simpl in Hp.
    exists (Child <$> q), (Child i), m. rewrite fmap_app. split_and!; try done.
    + apply visible_iff. exists q. by rewrite Hm.
    + by rewrite subtree_children.
    + unfold isCollapsed. destruct (children m) as [cs|]; [done|].
      by destruct (arr None !! i) eqn:E.
  - intros [->|(q & s & m & -> & Hq & Hm & Hc)].
    { apply visible_iff. by exists []. }
    apply visible_iff in Hq as (q' & -> & _).
    rewrite subtree_app, Hm in Hp. simpl in Hp.
    destruct s as [i|i]; simpl in Hp.
    + apply visible_iff. exists (q' ++ [i]). rewrite fmap_app. split; [done|].
      rewrite <- subtree_children, fmap_app, subtree_app, Hm. simpl.
      destruct (arr (children m) !! i); [by eexists | done].
    + exfalso. pose proof (subtree_inv T _ m HT Hm) as [Hi|Hi]%inv_inv_node.
      * unfold isCollapsed in Hc. rewrite Hi in Hc.
        destruct (_children m) as [[|x l]|]; simpl in Hp; done.
      * rewrite Hi in Hp. done.
Qed.

(** *** Links *)

Lemma elem_links T l :
  l ∈ links T ↔ target l ∈ descendants T ∧ parent (target l) = Some (source l).
Proof.
  unfold links. rewrite list_elem_of_omap. split.
  - intros (h & Hh & E). destruct (parent h) as [ph|] eqn:Hp; [|done].
    injection E as <-. done.
  - intros [Hh Hp]. exists (target l). split; [done|]. rewrite Hp.
    by destruct l.
Qed.

Lemma link_ends T l :
  l ∈ links T →
  source l ∈ descendants T ∧ target l ∈ descendants T ∧
  ∃ i, path (target l) = path (source l) ++ [i] ∧
       arr (children (data (source l))) !! i = Some (data (target l)).
Proof.
  intros [Hh Hp]%elem_links.
  pose proof Hh as [E|(ph & i & Hp' & Hw & Hpath & Hc)]%elem_descendants%wraps_parent.
  { rewrite E in Hp. done. }
  rewrite Hp in Hp'. injection Hp' as ->.
  split_and!; [by apply elem_descendants | done | by exists i].
Qed.

Lemma elem_link_paths T q r :
  (q, r) ∈ link_paths T ↔
  ∃ i, r = q ++ [i] ∧ visible T (Child <$> q) ∧ visible T (Child <$> r).
Proof.
  unfold link_paths. rewrite list_elem_of_fmap. split.
  - intros (l & [= -> ->] & Hl).
    destruct (link_ends T l Hl) as (Hs & Ht & i & Hp & _).
    exists i. split_and!; [done | by exists (source l) | by exists (target l)].
  - intros (i & -> & _ & (h & Hh & E)).
    apply (inj (fmap Child)) in E.
    pose proof Hh as [E'|(ph & j & Hp' & Hw & Hpath & _)]%elem_descendants%wraps_parent.
    { rewrite E' in E. simpl in E. by destruct q. }
    exists (mkSimLink ph h). simpl. split.
    + rewrite Hpath in E. apply app_inj_tail in E as [E1 E2]. subst q j.
      by rewrite Hpath.
    + by apply elem_links.
Qed.

Lemma NoDup_link_paths T : NoDup (link_paths T).
Proof.
  apply (NoDup_fmap_1 snd). unfold link_paths, links.
  rewrite <- list_fmap_compose.
  eapply sublist_NoDup; [apply (NoDup_descendants T)|].
  induction (descendants T) as [|h l IH]; simpl; [constructor|].
  destruct (parent h); simpl; by constructor.
Qed.

Lemma length_links T : S (length (links T)) = length (descendants T).
Proof.
  destruct (descendants_head T) as (rest & E & Hrest).
  unfold links. rewrite E. simpl. f_equal. clear E.
  induction rest as [|x l IH]; [done|]. simpl.
  destruct (Hrest x) as [ph ->]; [by left|]. simpl. f_equal.
  apply IH. intros h' Hh'. apply Hrest. by right.
Qed.

(** C1.  The flattening made at render time ([d3.hierarchy] followed by
    [descendants] and [links]) is consistent with the collapse state.  For
    every data tree [T]:
    - a node of [T] is flattened iff it is the root or its parent is
      flattened and not collapsed (for trees satisfying the invariant of
      the data model, at most one of [children] / [_children] present);
    - nothing below a collapsed node is flattened, and no flattened node
      is reached through [_children];
    - the links are, without repetition, exactly the parent-child pairs of
      flattened nodes, so there is one link less than there are nodes. *)
Theorem flatten_visible (T : Node) :
  (inv T → ∀ p n, subtree T p = Some n →
     (visible T p ↔
      p = [] ∨ ∃ q s m, p = q ++ [s] ∧ visible T q ∧ subtree T q = Some m ∧
                        isCollapsed m = false)) ∧
  (∀ q m r, subtree T q = Some m → isCollapsed m = true → r ≠ [] →
            ¬ visible T (q ++ r)) ∧
  (∀ p i, visible T p → Hidden i ∉ p) ∧
  NoDup (link_paths T) ∧
  (∀ q r, (q, r) ∈ link_paths T ↔
          ∃ i, r = q ++ [i] ∧ visible T (Child <$> q) ∧ visible T (Child <$> r)) ∧
  S (length (links T)) = length (descendants T).
Proof.
  split_and!.
  - intros HT p n Hp. by eapply visible_step.
  - apply collapsed_hides.
  - intros p i Hp. by apply (visible_no_hidden T).
  - apply NoDup_link_paths.
  - apply elem_link_paths.
  - apply length_links.
Qed.

(** On the sample tree: [a2] is flattened, [b1] (below the collapsed [b])
    is not. *)
Lemma flatten_visible_witness :
  inv sample_tree ∧
  visible sample_tree [Child 0; Child 1] ∧
  ¬ visible sample_tree [Child 1; Hidden 0].
Proof.
  assert (Hinv : inv sample_tree) by (simpl; unfold inv_node; simpl; tauto).
  split; [exact Hinv|].
  destruct (flatten_visible sample_tree) as (Hstep & Hhide & _).
  split.
  - apply (Hstep Hinv [Child 0; Child 1] (leaf "a2") eq_refl).
    right. eexists [Child 0], (Child 1), _.
    split_and!; [done| |reflexivity|done].
    apply (Hstep Hinv [Child 0] _ eq_refl).
    right. eexists [], (Child 0), _.
    split_and!; [done| |reflexivity|done].
    apply (Hstep Hinv [] _ eq_refl). by left.
  - apply (Hhide [Child 1] _ [Hidden 0] eq_refl); done.
Defined.

(** ** Collapse and expand *)

Lemma levels_no_children par p c :
  children c = None → levels par p c = [[mkHNode c (length p) p par]].
Proof. intros Hc. rewrite levels_unfold, Hc. done. Qed.

Lemma levels_from_no_children me p cs : ∀ i,
  Forall (λ c, children c = None) cs →
  levels_from me p i cs =
  match cs with
  | [] => []
  | _ => [imap (λ k c, mkHNode c (S (length p)) (p ++ [i + k]) (Some me)) cs]
  end.
Proof.
  induction cs as [|c cs IH]; intros i Hcs; [done|].
  apply Forall_cons in Hcs as [Hc Hcs]. simpl.
  rewrite (levels_no_children _ _ _ Hc), (IH (S i) Hcs).
  rewrite length_app, Nat.add_0_r. simpl. rewrite Nat.add_1_r.
  destruct cs as [|c' cs]; [done|]. simpl. do 3 f_equal.
  - by rewrite Nat.add_succ_r, Nat.add_0_r.
  - apply imap_ext. intros k x _. simpl. by rewrite !Nat.add_succ_r.
Qed.

Lemma recollapse_children c : children (recollapse c) = None.
Proof. rewrite recollapse_collapse. apply collapse_children. Qed.

Lemma fmap_imap_indep {A B C} (g : B → C) (f : nat → A → B) (f' : A → C) l :
  (∀ k a, g (f k a) = f' a) → g <$> imap f l = f' <$> l.
Proof.
  intros H. revert f H. induction l as [|a l IH]; intros f H; [done|].
  simpl. rewrite H. f_equal. apply IH. intros k b. apply H.
Qed.

(** After [expandOne] the flattening of a node is the node followed by
    its direct children. *)
Lemma descendants_expandOne n hs :
  _children n = Some hs →
  descendants (expandOne n) =
  mkHNode (expandOne n) 0 [] None
    :: imap (λ k c, mkHNode c 1 [k] (Some (mkHNode (expandOne n) 0 [] None)))
            (recollapse <$> hs).
Proof.
  intros Hh. unfold descendants. rewrite levels_unfold. simpl concat. f_equal.
  rewrite levels_from_no_children.
  - unfold expandOne. rewrite Hh. simpl.
    destruct hs; simpl; [done|]. by rewrite app_nil_r.
  - unfold expandOne. rewrite Hh. simpl. apply Forall_fmap, Forall_true.
    intros c. apply recollapse_children.
Qed.

(** C2.  [expandOne] reveals exactly one level.  For a node [n] with
    [_children] present, it moves [_children] to [children] and moves the
    [children] of every direct child to that child's [_children]; after it
    no child of [n] has a [children] field, and the flattening of [n] is
    [n] followed by its direct children, nothing deeper.  On a node
    without [_children] it changes nothing. *)
Theorem expandOne_one_level (n : Node) :
  (∀ hs, _children n = Some hs →
     children (expandOne n) = Some (recollapse <$> hs) ∧
     _children (expandOne n) = None ∧
     (∀ c cs, c ∈ hs → children c = Some cs →
        recollapse c = mkNode (id c) (text c) (pinned c) None (Some cs)) ∧
     (∀ c, c ∈ hs → children c = None → recollapse c = c) ∧
     Forall (λ c', children c' = None) (arr (children (expandOne n))) ∧
     data <$> descendants (expandOne n) = expandOne n :: (recollapse <$> hs) ∧
     Forall (λ h, depth h ≤ 1) (descendants (expandOne n)) ∧
     (children n = None → data <$> descendants n = [n])) ∧
  (_children n = None → expandOne n = n).
Proof.
  split; [|apply expandOne_noop].
  intros hs Hh. split_and!.
  - unfold expandOne. by rewrite Hh.
  - unfold expandOne. by rewrite Hh.
  - intros c cs _ Hc. unfold recollapse. by rewrite Hc.
  - intros c _ Hc. unfold recollapse. by rewrite Hc.
  - unfold expandOne. rewrite Hh. simpl. apply Forall_fmap, Forall_true.
    intros c. apply recollapse_children.
  - rewrite (descendants_expandOne n hs Hh), fmap_cons. f_equal.
    etrans; [by apply (fmap_imap_indep _ _ (λ c, c)) | apply list_fmap_id].
  - rewrite (descendants_expandOne n hs Hh). constructor; [simpl; lia|].
    apply Forall_lookup. intros k h Hk.
    apply list_lookup_imap_Some in Hk as (c & _ & ->). simpl. lia.
  - intros Hc. unfold descendants. by rewrite (levels_no_children _ _ _ Hc).
Qed.

(** On the collapsed sample node: the hidden leaf becomes the only child. *)
Lemma expandOne_one_level_witness :
  _children collapsed_node = Some [leaf "c"] ∧
  children (expandOne collapsed_node) = Some [leaf "c"] ∧
  data <$> descendants (expandOne collapsed_node)
  = [expandOne collapsed_node; leaf "c"].
Proof.
  split; [reflexivity|].
  destruct (expandOne_one_level collapsed_node) as [H _].
  destruct (H [leaf "c"] eq_refl) as (Hc & _ & _ & _ & _ & Hd & _).
  split; [exact Hc | exact Hd].
Defined.

Lemma no_hidden_hidden d : no_hidden d → _children d = None.
Proof. destruct d as [i t p [cs|] hs]; simpl; tauto. Qed.

Lemma fmap_collapse_fields (cs : list Node) :
  id <$> (collapse <$> cs) = id <$> cs ∧
  text <$> (collapse <$> cs) = text <$> cs ∧
  pinned <$> (collapse <$> cs) = pinned <$> cs.
Proof.
  rewrite <- !list_fmap_compose.
  split_and!; apply list_fmap_ext; intros k c _; simpl; apply collapse_fields.
Qed.

(** C3.  [collapse] hands the array of [children] to [_children] and
    [expandOne] hands it back, so for a node [n] whose [children] field is
    present [expandOne (collapse n)] holds in [children] the same nodes in
    the same order and leaves [_children] absent.  The objects of the
    source are values here, so "the same nodes" reads: at every position
    the same [id], [text] and [pinned], and, when no node below [n] has a
    [_children] field, the same owned subtree.  Every child that had a
    [children] field comes back collapsed, as [expandOne] reveals one
    level only; when no child has a [children] field the value of
    [children] is literally the one of before. *)
Theorem collapse_expandOne_roundtrip (n : Node) (cs : list Node) :
  children n = Some cs →
  children (expandOne (collapse n)) = Some (collapse <$> cs) ∧
  _children (expandOne (collapse n)) = None ∧
  length (collapse <$> cs) = length cs ∧
  id <$> (collapse <$> cs) = id <$> cs ∧
  text <$> (collapse <$> cs) = text <$> cs ∧
  pinned <$> (collapse <$> cs) = pinned <$> cs ∧
  (Forall (λ c, children c = None) cs →
   children (expandOne (collapse n)) = children n) ∧
  (no_collapse_below n → skeleton <$> (collapse <$> cs) = skeleton <$> cs).
Proof.
  intros Hc.
  assert (E : children (expandOne (collapse n)) = Some (collapse <$> cs)).
  { unfold collapse, expandOne. rewrite Hc. simpl. apply (f_equal Some).
    apply list_fmap_ext. intros k c _. apply recollapse_collapse. }
  destruct (fmap_collapse_fields cs) as (Hi & Ht & Hp).
  split_and!; [exact E | | | exact Hi | exact Ht | exact Hp | |].
  - unfold collapse, expandOne. by rewrite Hc.
  - apply length_fmap.
  - intros Hcs. rewrite E, Hc. f_equal.
    etrans; [|apply list_fmap_id]. apply Forall_fmap_ext.
    eapply Forall_impl; [exact Hcs|]. intros c. apply collapse_noop.
  - unfold no_collapse_below. rewrite Hc. simpl. intros [Hcs _]%Forall_app.
    rewrite <- list_fmap_compose. apply Forall_fmap_ext.
    eapply Forall_impl; [exact Hcs|]. intros c Hn. simpl.
    apply collapse_skeleton. right. by apply no_hidden_hidden.
Qed.

(** A node with a child and a grandchild: the child is back in its place,
    holding the grandchild. *)
Lemma collapse_expandOne_roundtrip_witness :
  children deep_node
  = Some [mkNode (Some "c") "C" false (Some [leaf "g"]) None] ∧
  children (expandOne (collapse deep_node))
  = Some [mkNode (Some "c") "C" false None (Some [leaf "g"])].
Proof.
  split; [reflexivity|].
  apply (collapse_expandOne_roundtrip deep_node _ eq_refl).
Defined.

(** C4.  Both operations keep the invariant "at most one of [children] /
    [_children] is present": on a tree satisfying it, the result of
    [collapse] and of [expandOne] satisfies it at every node, the children
    handled by [expandOne] included.  [collapse] changes nothing on a node
    without [children] (an already collapsed node in particular), and
    neither operation loses a subtree: what a node owns is the same before
    and after, only the field that holds it changes. *)
Theorem collapse_expandOne_keep_inv (n : Node) :
  inv n →
  inv (collapse n) ∧ inv (expandOne n) ∧
  Forall inv_node (arr (children (expandOne n))) ∧
  (children n = None → collapse n = n) ∧
  (isCollapsed n = true → collapse n = n) ∧
  skeleton (collapse n) = skeleton n ∧
  skeleton (expandOne n) = skeleton n.
Proof.
  intros Hn. pose proof (expandOne_inv n Hn) as He. split_and!.
  - by apply collapse_inv.
  - done.
  - apply inv_unfold in He as (_ & He & _).
    eapply Forall_impl; [exact He|]. apply inv_inv_node.
  - apply collapse_noop.
  - intros Hc. apply collapse_noop. unfold isCollapsed in Hc.
    by destruct (children n).
  - apply collapse_skeleton. by apply inv_inv_node.
  - apply expandOne_skeleton; [by apply inv_inv_node|].
    apply inv_unfold in Hn as (_ & _ & Hh).
    eapply Forall_impl; [exact Hh|]. apply inv_inv_node.
Qed.

Lemma collapse_expandOne_keep_inv_witness :
  inv sample_tree ∧
  inv (collapse sample_tree) ∧
  skeleton (collapse sample_tree) = skeleton sample_tree.
Proof.
  assert (Hinv : inv sample_tree) by (simpl; unfold inv_node; simpl; tauto).
  split; [exact Hinv|].
  destruct (collapse_expandOne_keep_inv sample_tree Hinv)
    as (Hc & _ & _ & _ & _ & Hs & _).
  split; [exact Hc | exact Hs].
Defined.

(** ** Numbers *)

Lemma Qlt_bool_iff (a b : Q) : Qlt_bool a b = true ↔ (a < b)%Q.
Proof.
  unfold Qlt_bool. rewrite negb_true_iff, <- not_true_iff_false, Qle_bool_iff.
  split; [apply Qnot_le_lt | apply Qlt_not_le].
Qed.

Lemma Qlt_bool_false (a b : Q) : Qlt_bool a b = false ↔ (b <= a)%Q.
Proof.
  unfold Qlt_bool. rewrite negb_false_iff. apply Qle_bool_iff.
Qed.

Lemma Qor_zero (v e : Q) : (v == 0)%Q → Qor v e = e.
Proof. intros H. unfold Qor. by apply Qeq_bool_iff in H as ->. Qed.

Lemma Qor_nonzero (v e : Q) : ¬ (v == 0)%Q → Qor v e = v.
Proof.
  intros H. unfold Qor. destruct (Qeq_bool v 0) eqn:E; [|done].
  by apply Qeq_bool_iff in E.
Qed.

Lemma Qsign_pos (v : Q) : (0 < v)%Q → Qsign v = 1%Q.
Proof. intros H. unfold Qsign. by apply Qlt_bool_iff in H as ->. Qed.

Lemma Qsign_neg (v : Q) : (v < 0)%Q → Qsign v = (-1)%Q.
Proof.
  intros H. unfold Qsign.
  assert (Qlt_bool 0 v = false) as -> by (apply Qlt_bool_false; lra).
  by apply Qlt_bool_iff in H as ->.
Qed.

(** The delta used by the force is never zero, and points the way the
    centres are ordered (towards positive when they coincide). *)
Lemma Qor_eps_cases (d : Q) :
  ((d == 0)%Q ∧ Qor d (1 # 1000) = (1 # 1000)%Q ∧ Qsign (Qor d (1 # 1000)) = 1%Q) ∨
  ((0 < d)%Q ∧ Qor d (1 # 1000) = d ∧ Qsign (Qor d (1 # 1000)) = 1%Q) ∨
  ((d < 0)%Q ∧ Qor d (1 # 1000) = d ∧ Qsign (Qor d (1 # 1000)) = (-1)%Q).
Proof.
  destruct (Q_dec d 0) as [[H|H]|H].
  - right; right. rewrite Qor_nonzero by lra. split_and!; [done..|].
    by apply Qsign_neg.
  - right; left. rewrite Qor_nonzero by lra. split_and!; [done..|].
    by apply Qsign_pos.
  - left. rewrite (Qor_zero _ _ H). split_and!; [done..|].
    by apply Qsign_pos.
Qed.

(** Pushing two centres apart by [o * sign * al] in total adds [o * al] to
    their distance. *)
Lemma spread_abs (d o al : Q) :
  (0 <= o * al)%Q →
  (Qabs (d + o * Qsign (Qor d (1 # 1000)) * al) == Qabs d + o * al)%Q.
Proof.
  intros H.
  destruct (Qor_eps_cases d) as [(Hd & _ & ->)|[(Hd & _ & ->)|(Hd & _ & ->)]].
  - rewrite Hd. rewrite !Qabs_pos; lra.
  - rewrite !Qabs_pos; lra.
  - rewrite !Qabs_neg; lra.
Qed.

(** ** The box collision force *)

Section boxCollide_facts.
Variable dom : string → option Rect.
Variable padding : Q.

(** A pair with an unmeasured node is left alone. *)
Lemma pair_step_skip alpha (measured : gmap string Box) i j
    (simNodes : list Sim.node) a b :
  simNodes !! i = Some a → simNodes !! j = Some b →
  measured !! Sim.id a = None ∨ measured !! Sim.id b = None →
  pair_step padding alpha measured i j simNodes = Ok simNodes.
Proof.
  intros Hi Hj H. unfold pair_step. rewrite Hi, Hj. simpl.
  destruct H as [-> | ->]; simpl; [done|].
  by destruct (measured !! Sim.id a).
Qed.

(** A measured pair is replaced by its separation. *)
Lemma pair_step_separate alpha (measured : gmap string Box) i j
    (simNodes : list Sim.node) a b A B :
  simNodes !! i = Some a → simNodes !! j = Some b →
  measured !! Sim.id a = Some A → measured !! Sim.id b = Some B →
  pair_step padding alpha measured i j simNodes =
  Ok (<[j := (separate padding alpha A B a b).2]>
        (<[i := (separate padding alpha A B a b).1]> simNodes)).
Proof.
  intros Hi Hj HA HB.
  unfold pair_step, separate, overlapX, overlapY, minX, minY, dx, dy, move_to.
  rewrite Hi, Hj. simpl. rewrite HA, HB. simpl.
  destruct (Qlt_bool 0 _ && Qlt_bool 0 _); [by destruct (Qlt_bool _ _)|].
  simpl. by rewrite (list_insert_id _ i a), (list_insert_id _ j b).
Qed.

Lemma pair_step_total alpha (measured : gmap string Box) i j
    (simNodes : list Sim.node) :
  i < length simNodes → j < length simNodes →
  ∃ ns, pair_step padding alpha measured i j simNodes = Ok ns ∧
        length ns = length simNodes.
Proof.
  intros [a Hi]%lookup_lt_is_Some_2 [b Hj]%lookup_lt_is_Some_2.
  unfold pair_step. rewrite Hi, Hj. simpl.
  destruct (measured !! Sim.id a) as [A|]; simpl; [|by eexists].
  destruct (measured !! Sim.id b) as [B|]; simpl; [|by eexists].
  destruct (Qlt_bool 0 _ && Qlt_bool 0 _); [|by eexists].
  destruct (Qlt_bool _ _); eexists; (split; [done|]);
    by rewrite !length_insert.
Qed.

Lemma foldM_total {A S} (P : S → Prop) (f : S → A → result S) l : ∀ s,
  P s → (∀ s a, a ∈ l → P s → ∃ s', f s a = Ok s' ∧ P s') →
  ∃ s', foldM f s l = Ok s' ∧ P s'.
Proof.
  induction l as [|a l IH]; intros s Hs Hf; simpl; [by eexists|].
  destruct (Hf s a) as (s' & -> & Hs'); [by left | done |]. simpl.
  apply IH; [done|]. intros s0 a0 Ha0. apply Hf. by right.
Qed.

Lemma inner_loop_total alpha (measured : gmap string Box) i
    (simNodes : list Sim.node) :
  i < length simNodes →
  ∃ ns, inner_loop padding alpha measured i simNodes = Ok ns ∧
        length ns = length simNodes.
Proof.
  intros Hi. unfold inner_loop.
  apply (foldM_total (λ ns, length ns = length simNodes)); [done|].
  intros ns j [Hj1 Hj2]%elem_of_seq Hns.
  destruct (pair_step_total alpha measured i j ns) as (ns' & -> & Hl);
    [lia.. |]. exists ns'. split; [done | congruence].
Qed.

(** One invocation never throws, and keeps the array's length. *)
Lemma force_total alpha (measured : gmap string Box)
    (simNodes : list Sim.node) :
  ∃ ns, (force dom padding alpha measured simNodes).2 = Ok ns ∧
        length ns = length simNodes.
Proof.
  unfold force. simpl.
  apply (foldM_total (λ ns, length ns = length simNodes)); [done|].
  intros ns i [_ Hi]%elem_of_seq Hns.
  destruct (inner_loop_total alpha (foldl (measure dom) measured simNodes) i ns)
    as (ns' & -> & Hl); [lia|]. exists ns'. split; [done | congruence].
Qed.

(** A node that is neither cached nor in the document stays unmeasured. *)
Lemma measure_unknown (measured : gmap string Box) (ns : list Sim.node) k :
  measured !! k = None → dom k = None →
  foldl (measure dom) measured ns !! k = None.
Proof.
  intros Hm Hd. revert measured Hm.
  induction ns as [|n ns IH]; intros measured Hm; simpl; [done|].
  apply IH. unfold measure.
  destruct (measured !! Sim.id n); [done|].
  destruct (dom (Sim.id n)) eqn:E; [|done].
  rewrite lookup_insert_ne; [done|]. congruence.
Qed.
End boxCollide_facts.

(** *** The loops visit every unordered pair once *)

Lemma elem_pairs n i j : (i, j) ∈ pairs n ↔ i < j < n.
Proof.
  unfold pairs. rewrite list_elem_of_bind. split.
  - intros (i' & (j' & [= -> ->] & Hj)%list_elem_of_fmap & Hi).
    apply elem_of_seq in Hj, Hi. lia.
  - intros Hij. exists i. split.
    + apply list_elem_of_fmap. exists j. split; [done|].
      apply elem_of_seq. lia.
    + apply elem_of_seq. lia.
Qed.

Lemma NoDup_pairs n : NoDup (pairs n).
Proof.
  unfold pairs. apply NoDup_bind.
  - intros i1 i2 [i j] _ _ (? & [= -> ->] & _)%list_elem_of_fmap
                           (? & [= -> _] & _)%list_elem_of_fmap. done.
  - intros i _. apply NoDup_fmap_2; [|apply NoDup_seq]. by intros ?? [= ->].
  - apply NoDup_seq.
Qed.

Lemma foldM_app {A S} (f : S → A → result S) l1 l2 : ∀ s,
  foldM f s (l1 ++ l2) = s' ← foldM f s l1; foldM f s' l2.
Proof.
  induction l1 as [|a l1 IH]; intros s; simpl; [done|].
  destruct (f s a) as [s'|]; simpl; [apply IH | done].
Qed.

Lemma foldM_fmap {A B S} (f : S → B → result S) (g : A → B) l : ∀ s,
  foldM f s (g <$> l) = foldM (λ s a, f s (g a)) s l.
Proof.
  induction l as [|a l IH]; intros s; simpl; [done|].
  destruct (f s (g a)) as [s'|]; simpl; [apply IH | done].
Qed.

Lemma foldM_preserves {A S} (P : S → Prop) (f : S → A → result S) l : ∀ s s',
  (∀ s a s', f s a = Ok s' → P s → P s') →
  foldM f s l = Ok s' → P s → P s'.
Proof.
  induction l as [|a l IH]; intros s s' Hf; simpl; [by intros [= <-]|].
  destruct (f s a) as [s1|] eqn:E; simpl; [|done].
  intros H Hs. eapply IH; [done | exact H |]. by eapply Hf.
Qed.

Lemma pair_step_length padding alpha (measured : gmap string Box) i j
    (cur ns : list Sim.node) :
  pair_step padding alpha measured i j cur = Ok ns → length ns = length cur.
Proof.
  unfold pair_step.
  destruct (cur !! i) as [a|]; simpl; [|done].
  destruct (cur !! j) as [b|]; simpl; [|done].
  destruct (measured !! Sim.id a) as [A|]; simpl; [|by intros [= <-]].
  destruct (measured !! Sim.id b) as [B|]; simpl; [|by intros [= <-]].
  destruct (Qlt_bool 0 _ && Qlt_bool 0 _); [|by intros [= <-]].
  destruct (Qlt_bool _ _); intros [= <-]; by rewrite !length_insert.
Qed.

(** One invocation runs the pair step over [pairs], in order. *)
Lemma force_pairs dom padding alpha (measured : gmap string Box)
    (simNodes : list Sim.node) :
  (force dom padding alpha measured simNodes).2 =
  foldM (λ cur ij,
           pair_step padding alpha
             (force dom padding alpha measured simNodes).1 ij.1 ij.2 cur)
        simNodes (pairs (length simNodes)).
Proof.
  unfold force, pairs. simpl.
  set (m := foldl (measure dom) measured simNodes).
  set (n := length simNodes).
  assert (H : ∀ idx (cur : list Sim.node), length cur = n →
    foldM (λ ns i, inner_loop padding alpha m i ns) cur idx =
    foldM (λ cur ij, pair_step padding alpha m ij.1 ij.2 cur) cur
          (idx ≫= λ i, (λ j, (i, j)) <$> seq (S i) (n - S i))).
  { induction idx as [|i idx IH]; intros cur Hcur; [done|].
    rewrite bind_cons, foldM_app, foldM_fmap. simpl.
    assert (inner_loop padding alpha m i cur =
            foldM (λ s a, pair_step padding alpha m i a s) cur
                  (seq (S i) (n - S i))) as ->
      by (unfold inner_loop; by rewrite Hcur).
    destruct (foldM _ cur (seq _ _)) as [cur'|] eqn:E; simpl; [|done].
    apply IH. rewrite <- Hcur.
    eapply (foldM_preserves (λ l, length l = length cur)); [|exact E|done].
    intros s j s' Hs Hl. apply pair_step_length in Hs. congruence. }
  by apply H.
Qed.

(** *** What the step does to a measured pair *)

Section separate_facts.
Variables (padding alpha : Q) (A B : Box) (a b : Sim.node).

Let ox := overlapX padding A B a b.
Let oy := overlapY padding A B a b.

Lemma separate_none :
  ¬ ((0 < ox)%Q ∧ (0 < oy)%Q) → separate padding alpha A B a b = (a, b).
Proof.
  intros H. unfold separate. fold ox oy.
  destruct (Qlt_bool 0 ox) eqn:Ex; [|done].
  destruct (Qlt_bool 0 oy) eqn:Ey; [|done].
  apply Qlt_bool_iff in Ex, Ey. tauto.
Qed.

Lemma separate_x :
  (0 < ox)%Q → (0 < oy)%Q → (ox < oy)%Q →
  separate padding alpha A B a b =
  (move_to a (Sim.x a - ox * Qsign (dx a b) * alpha / 2) (Sim.y a),
   move_to b (Sim.x b + ox * Qsign (dx a b) * alpha / 2) (Sim.y b)).
Proof.
  intros Hx%Qlt_bool_iff Hy%Qlt_bool_iff Hxy%Qlt_bool_iff.
  unfold separate. fold ox oy. by rewrite Hx, Hy, Hxy.
Qed.

Lemma separate_y :
  (0 < ox)%Q → (0 < oy)%Q → (oy <= ox)%Q →
  separate padding alpha A B a b =
  (move_to a (Sim.x a) (Sim.y a - oy * Qsign (dy a b) * alpha / 2),
   move_to b (Sim.x b) (Sim.y b + oy * Qsign (dy a b) * alpha / 2)).
Proof.
  intros Hx%Qlt_bool_iff Hy%Qlt_bool_iff Hxy%Qlt_bool_false.
  unfold separate. fold ox oy. by rewrite Hx, Hy, Hxy.
Qed.

(** The step changes positions only. *)
Lemma separate_same_nodes :
  let r := separate padding alpha A B a b in
  Sim.id r.1 = Sim.id a ∧ Sim.data r.1 = Sim.data a ∧
  Sim.fx r.1 = Sim.fx a ∧ Sim.fy r.1 = Sim.fy a ∧
  Sim.id r.2 = Sim.id b ∧ Sim.data r.2 = Sim.data b ∧
  Sim.fx r.2 = Sim.fx b ∧ Sim.fy r.2 = Sim.fy b.
Proof.
  unfold separate.
  destruct (Qlt_bool 0 _ && Qlt_bool 0 _); [|done].
  by destruct (Qlt_bool _ _).
Qed.

(** Along the chosen axis the centres end [overlap * alpha] further
    apart. *)
Lemma separate_x_distance :
  (0 < ox)%Q → (0 < oy)%Q → (ox < oy)%Q → (0 <= alpha)%Q →
  let r := separate padding alpha A B a b in
  (Qabs (Sim.x r.2 - Sim.x r.1) == Qabs (Sim.x b - Sim.x a) + ox * alpha)%Q.
Proof.
  intros Hx Hy Hxy Ha. rewrite separate_x by done.
  cbv zeta. unfold move_to. cbn [fst snd Sim.x].
  rewrite <- (spread_abs (Sim.x b - Sim.x a) ox alpha)
    by (apply Qmult_le_0_compat; lra).
  apply Qabs_wd. unfold dx. field.
Qed.

Lemma separate_y_distance :
  (0 < ox)%Q → (0 < oy)%Q → (oy <= ox)%Q → (0 <= alpha)%Q →
  let r := separate padding alpha A B a b in
  (Qabs (Sim.y r.2 - Sim.y r.1) == Qabs (Sim.y b - Sim.y a) + oy * alpha)%Q.
Proof.
  intros Hx Hy Hxy Ha. rewrite separate_y by done.
  cbv zeta. unfold move_to. cbn [fst snd Sim.y].
  rewrite <- (spread_abs (Sim.y b - Sim.y a) oy alpha)
    by (apply Qmult_le_0_compat; lra).
  apply Qabs_wd. unfold dy. field.
Qed.

(** The delta is the difference of the centres, or 0.001 when that
    difference is zero; it is never zero and its sign is 1 or -1. *)
Lemma dx_cases :
  ((Sim.x b - Sim.x a == 0)%Q → dx a b = (1 # 1000)%Q) ∧
  (¬ (Sim.x b - Sim.x a == 0)%Q → dx a b = (Sim.x b - Sim.x a)%Q) ∧
  ¬ (dx a b == 0)%Q ∧
  (Qsign (dx a b) = 1%Q ∨ Qsign (dx a b) = (-1)%Q).
Proof.
  unfold dx.
  destruct (Qor_eps_cases (Sim.x b - Sim.x a))
    as [(Hd & E & Hs)|[(Hd & E & Hs)|(Hd & E & Hs)]];
    rewrite Hs, E; (split_and!; [ | | | auto]).
  - done.
  - intros H. by destruct H.
  - intros H. discriminate H.
  - intros H. exfalso. lra.
  - done.
  - lra.
  - intros H. exfalso. lra.
  - done.
  - lra.
Qed.

Lemma dy_cases :
  ((Sim.y b - Sim.y a == 0)%Q → dy a b = (1 # 1000)%Q) ∧
  (¬ (Sim.y b - Sim.y a == 0)%Q → dy a b = (Sim.y b - Sim.y a)%Q) ∧
  ¬ (dy a b == 0)%Q ∧
  (Qsign (dy a b) = 1%Q ∨ Qsign (dy a b) = (-1)%Q).
Proof.
  unfold dy.
  destruct (Qor_eps_cases (Sim.y b - Sim.y a))
    as [(Hd & E & Hs)|[(Hd & E & Hs)|(Hd & E & Hs)]];
    rewrite Hs, E; (split_and!; [ | | | auto]).
  - done.
  - intros H. by destruct H.
  - intros H. discriminate H.
  - intros H. exfalso. lra.
  - done.
  - lra.
  - intros H. exfalso. lra.
  - done.
  - lra.
Qed.
End separate_facts.

(** C5.  One invocation of the collision force at energy [alpha] runs the
    pair step once for every unordered pair of indices [i < j], in order.
    For a pair of measured nodes the step takes the difference of the
    centres on each axis (0.001 in place of a zero difference), the minimum
    separation on each axis (half the sum of the two extents plus the
    padding) and the two overlaps.  When both overlaps are positive it
    moves the two nodes along the axis with the smaller overlap, each by
    [overlap * sign(delta) * alpha / 2], [a] against the sign and [b] with
    it, which puts the centres [overlap * alpha] further apart; otherwise
    it leaves the pair as it is. *)
Theorem boxCollide_pair dom padding alpha (measured : gmap string Box)
    (simNodes : list Sim.node) :
  let measured' := (force dom padding alpha measured simNodes).1 in
  (force dom padding alpha measured simNodes).2 =
    foldM (λ cur ij, pair_step padding alpha measured' ij.1 ij.2 cur)
          simNodes (pairs (length simNodes)) ∧
  NoDup (pairs (length simNodes)) ∧
  (∀ i j, (i, j) ∈ pairs (length simNodes) ↔ i < j < length simNodes) ∧
  ∀ i j (cur : list Sim.node) a b A B,
    cur !! i = Some a → cur !! j = Some b →
    measured' !! Sim.id a = Some A → measured' !! Sim.id b = Some B →
    let ox := overlapX padding A B a b in
    let oy := overlapY padding A B a b in
    let a' := (separate padding alpha A B a b).1 in
    let b' := (separate padding alpha A B a b).2 in
    pair_step padding alpha measured' i j cur = Ok (<[j := b']> (<[i := a']> cur)) ∧
    (Sim.id a' = Sim.id a ∧ Sim.data a' = Sim.data a ∧
     Sim.fx a' = Sim.fx a ∧ Sim.fy a' = Sim.fy a ∧
     Sim.id b' = Sim.id b ∧ Sim.data b' = Sim.data b ∧
     Sim.fx b' = Sim.fx b ∧ Sim.fy b' = Sim.fy b) ∧
    (((Sim.x b - Sim.x a == 0)%Q → dx a b = (1 # 1000)%Q) ∧
     (¬ (Sim.x b - Sim.x a == 0)%Q → dx a b = (Sim.x b - Sim.x a)%Q) ∧
     ¬ (dx a b == 0)%Q ∧
     (Qsign (dx a b) = 1%Q ∨ Qsign (dx a b) = (-1)%Q)) ∧
    (((Sim.y b - Sim.y a == 0)%Q → dy a b = (1 # 1000)%Q) ∧
     (¬ (Sim.y b - Sim.y a == 0)%Q → dy a b = (Sim.y b - Sim.y a)%Q) ∧
     ¬ (dy a b == 0)%Q ∧
     (Qsign (dy a b) = 1%Q ∨ Qsign (dy a b) = (-1)%Q)) ∧
    ox = ((w A + w B) / 2 + padding - Qabs (dx a b))%Q ∧
    oy = ((h A + h B) / 2 + padding - Qabs (dy a b))%Q ∧
    ((0 < ox)%Q → (0 < oy)%Q → (ox < oy)%Q →
       Sim.x a' = (Sim.x a - ox * Qsign (dx a b) * alpha / 2)%Q ∧
       Sim.x b' = (Sim.x b + ox * Qsign (dx a b) * alpha / 2)%Q ∧
       Sim.y a' = Sim.y a ∧ Sim.y b' = Sim.y b ∧
       ((0 <= alpha)%Q →
        (Qabs (Sim.x b' - Sim.x a') == Qabs (Sim.x b - Sim.x a) + ox * alpha)%Q)) ∧
    ((0 < ox)%Q → (0 < oy)%Q → (oy <= ox)%Q →
       Sim.y a' = (Sim.y a - oy * Qsign (dy a b) * alpha / 2)%Q ∧
       Sim.y b' = (Sim.y b + oy * Qsign (dy a b) * alpha / 2)%Q ∧
       Sim.x a' = Sim.x a ∧ Sim.x b' = Sim.x b ∧
       ((0 <= alpha)%Q →
        (Qabs (Sim.y b' - Sim.y a') == Qabs (Sim.y b - Sim.y a) + oy * alpha)%Q)) ∧
    (¬ ((0 < ox)%Q ∧ (0 < oy)%Q) → a' = a ∧ b' = b).
Proof.
  intros measured'. split_and!.
  - apply force_pairs.
  - apply NoDup_pairs.
  - intros i j. apply elem_pairs.
  - intros i j cur a b A B Hi Hj HA HB ox oy a' b'.
    split; [by apply pair_step_separate|].
    split; [apply separate_same_nodes|].
    split; [apply (dx_cases a b)|]. split; [apply (dy_cases a b)|].
    split; [done|]. split; [done|]. split; [|split].
    + intros Hx Hy Hxy.
      pose proof (separate_x_distance padding alpha A B a b Hx Hy Hxy) as Hd.
      unfold a', b' in *.
      rewrite (separate_x padding alpha A B a b Hx Hy Hxy) in *. done.
    + intros Hx Hy Hxy.
      pose proof (separate_y_distance padding alpha A B a b Hx Hy Hxy) as Hd.
      unfold a', b' in *.
      rewrite (separate_y padding alpha A B a b Hx Hy Hxy) in *. done.
    + intros H. unfold a', b'.
      by rewrite (separate_none padding alpha A B a b H).
Qed.

(** Two boxes 20 wide and 1000 high, centres 50 apart on x and 1 apart on
    y, padding 40, energy 1/2: the pair overlaps by 10 on x and by 1039 on
    y, and is moved on x, by 5/2 each way. *)
Lemma boxCollide_pair_witness :
  let m := (force sample_dom 40 (1 # 2) ∅ two_nodes).1 in
  (two_nodes !! 0 = Some (sample_node "a" 0 0) ∧
   two_nodes !! 1 = Some (sample_node "b" 50 1) ∧
   m !! "a" = Some (mkBox 20 1000) ∧ m !! "b" = Some (mkBox 20 1000)) ∧
  pair_step 40 (1 # 2) m 0 1 two_nodes =
  Ok [ (separate 40 (1 # 2) (mkBox 20 1000) (mkBox 20 1000)
          (sample_node "a" 0 0) (sample_node "b" 50 1)).1;
       (separate 40 (1 # 2) (mkBox 20 1000) (mkBox 20 1000)
          (sample_node "a" 0 0) (sample_node "b" 50 1)).2 ].
Proof.
  intros m.
  assert (H0 : two_nodes !! 0 = Some (sample_node "a" 0 0)) by reflexivity.
  assert (H1 : two_nodes !! 1 = Some (sample_node "b" 50 1)) by reflexivity.
  assert (HA : m !! "a" = Some (mkBox 20 1000)) by (vm_compute; reflexivity).
  assert (HB : m !! "b" = Some (mkBox 20 1000)) by (vm_compute; reflexivity).
  split; [by split_and!|].
  destruct (boxCollide_pair sample_dom 40 (1 # 2) ∅ two_nodes) as (_ & _ & _ & H).
  destruct (H 0 1 two_nodes _ _ _ _ H0 H1 HA HB) as (Hstep & _).
  exact Hstep.
Defined.

(** C10.  When the two overlaps of a measured pair are equal and positive
    the step resolves the pair on the y axis: the comparison
    [overlapX < overlapY] is strict, so the x positions stay as they are
    and the y positions move. *)
Theorem boxCollide_tie padding alpha (measured : gmap string Box) i j
    (cur : list Sim.node) a b A B :
  cur !! i = Some a → cur !! j = Some b →
  measured !! Sim.id a = Some A → measured !! Sim.id b = Some B →
  (overlapX padding A B a b == overlapY padding A B a b)%Q →
  (0 < overlapX padding A B a b)%Q →
  ∃ a' b',
    pair_step padding alpha measured i j cur = Ok (<[j := b']> (<[i := a']> cur)) ∧
    Sim.x a' = Sim.x a ∧ Sim.x b' = Sim.x b ∧
    Sim.y a' = (Sim.y a - overlapY padding A B a b * Qsign (dy a b) * alpha / 2)%Q ∧
    Sim.y b' = (Sim.y b + overlapY padding A B a b * Qsign (dy a b) * alpha / 2)%Q.
Proof.
  intros Hi Hj HA HB Heq Hpos.
  exists (separate padding alpha A B a b).1, (separate padding alpha A B a b).2.
  split; [by apply pair_step_separate|].
  rewrite separate_y; [done | done | lra | lra].
Qed.

Lemma boxCollide_tie_witness :
  (overlapX 40 (mkBox 20 20) (mkBox 20 20)
     (sample_node "a" 0 0) (sample_node "b" 30 30)
   == overlapY 40 (mkBox 20 20) (mkBox 20 20)
        (sample_node "a" 0 0) (sample_node "b" 30 30))%Q ∧
  ∃ a' b',
    pair_step 40 (1 # 2) tie_measured 0 1 tie_nodes = Ok [a'; b'] ∧
    Sim.x a' = 0%Q ∧ Sim.x b' = 30%Q.
Proof.
  assert (Heq : (overlapX 40 (mkBox 20 20) (mkBox 20 20)
                   (sample_node "a" 0 0) (sample_node "b" 30 30)
                 == overlapY 40 (mkBox 20 20) (mkBox 20 20)
                      (sample_node "a" 0 0) (sample_node "b" 30 30))%Q)
    by reflexivity.
  split; [exact Heq|].
  destruct (boxCollide_tie 40 (1 # 2) tie_measured 0 1 tie_nodes
              (sample_node "a" 0 0) (sample_node "b" 30 30)
              (mkBox 20 20) (mkBox 20 20)
              eq_refl eq_refl eq_refl eq_refl Heq eq_refl)
    as (a' & b' & Hstep & Hax & Hbx & _).
  exists a', b'. split_and!; [exact Hstep | exact Hax | exact Hbx].
Defined.

Lemma pairs_two : pairs 2 = [(0, 1)].
Proof. reflexivity. Qed.

Lemma force_two_nodes dom padding alpha (measured : gmap string Box) a b :
  (force dom padding alpha measured [a; b]).2 =
  pair_step padding alpha (force dom padding alpha measured [a; b]).1 0 1 [a; b].
Proof.
  rewrite force_pairs. simpl length. rewrite pairs_two. simpl.
  by destruct (pair_step _ _ _ _ _ _).
Qed.

(** C9.  A pair in which a node has no known size is skipped.  An
    invocation never throws; a node that is not in the cache and whose
    element is not found in the document is still unmeasured after the
    measuring pass; and the step of a pair with an unmeasured node returns
    the array as it was, so on an array of two nodes the whole invocation
    changes nothing. *)
Theorem boxCollide_skips_unmeasured dom padding alpha
    (measured : gmap string Box) (simNodes : list Sim.node) :
  let measured' := (force dom padding alpha measured simNodes).1 in
  (∃ ns, (force dom padding alpha measured simNodes).2 = Ok ns ∧
         length ns = length simNodes) ∧
  (∀ k, measured !! k = None → dom k = None → measured' !! k = None) ∧
  (∀ i j (cur : list Sim.node) a b,
     cur !! i = Some a → cur !! j = Some b →
     measured' !! Sim.id a = None ∨ measured' !! Sim.id b = None →
     pair_step padding alpha measured' i j cur = Ok cur) ∧
  (∀ a b, simNodes = [a; b] →
     measured' !! Sim.id a = None ∨ measured' !! Sim.id b = None →
     (force dom padding alpha measured simNodes).2 = Ok [a; b]).
Proof.
  intros measured'. split; [apply force_total|].
  split; [intros k Hm Hd; by apply measure_unknown|].
  split; [intros i j cur a b; apply pair_step_skip|].
  intros a b -> H. rewrite force_two_nodes.
  by apply (pair_step_skip padding alpha _ 0 1 [a; b] a b).
Qed.

(** The element of ["z"] is not in the sample document: the pair is left
    where it was. *)
Lemma boxCollide_skips_unmeasured_witness :
  sample_dom "z" = None ∧
  (force sample_dom 40 (1 # 2) ∅ unknown_nodes).2 = Ok unknown_nodes.
Proof.
  split; [reflexivity|].
  destruct (boxCollide_skips_unmeasured sample_dom 40 (1 # 2) ∅ unknown_nodes)
    as (_ & Hunknown & _ & Htwo).
  apply (Htwo _ _ eq_refl). right. apply Hunknown; reflexivity.
Defined.

(** The geometric overlap is at least the one the force computes, which
    takes a zero difference of centres as 0.001. *)
Lemma overlapX_le padding A B a b :
  (overlapX padding A B a b <= overlap_x padding A B a b)%Q.
Proof.
  unfold overlapX, overlap_x, minX, dx.
  destruct (Qor_eps_cases (Sim.x b - Sim.x a)) as [(Hd & -> & _)|[(_ & -> & _)|(_ & -> & _)]];
    [|lra..].
  rewrite (Qabs_wd _ _ Hd). rewrite !Qabs_pos; lra.
Qed.

Lemma overlapY_le padding A B a b :
  (overlapY padding A B a b <= overlap_y padding A B a b)%Q.
Proof.
  unfold overlapY, overlap_y, minY, dy.
  destruct (Qor_eps_cases (Sim.y b - Sim.y a)) as [(Hd & -> & _)|[(_ & -> & _)|(_ & -> & _)]];
    [|lra..].
  rewrite (Qabs_wd _ _ Hd). rewrite !Qabs_pos; lra.
Qed.





(** ** Option resolution *)

Lemma resolve_omitted (options : gmap string jsval) k :
  options !! k = None → resolve options !! k = defaults !! k.
Proof. intros H. unfold resolve. by apply lookup_union_r. Qed.

Lemma resolve_given (options : gmap string jsval) k v :
  options !! k = Some v → resolve options !! k = Some v.
Proof. intros H. unfold resolve. by apply lookup_union_Some_l. Qed.

(** C7.  Every option may be omitted, and an omitted option takes the
    default written in [mindgen]: margin 40, linkDistance 120, linkStrength
    0.2, charge -500, centerStrength 0.1, xStrength and yStrength 0.01,
    alphaDecay 0.02, velocityDecay 0.4, boundsPadding 10, container
    ["body"]; an option that is given keeps its value.  The container is
    the exception in use: step 2 selects [options.container], not
    [opts.container], so when the container is omitted nothing is selected
    and reading the size of the container throws, whatever the document
    holds. *)
Theorem resolve_defaults (options : gmap string jsval) :
  (∀ k, options !! k = None → resolve options !! k = defaults !! k) ∧
  (∀ k v, options !! k = Some v → resolve options !! k = Some v) ∧
  (defaults !! "margin" = Some (JNum 40) ∧
   defaults !! "linkDistance" = Some (JNum 120) ∧
   defaults !! "linkStrength" = Some (JNum (2 # 10)) ∧
   defaults !! "charge" = Some (JNum (-500)) ∧
   defaults !! "centerStrength" = Some (JNum (1 # 10)) ∧
   defaults !! "xStrength" = Some (JNum (1 # 100)) ∧
   defaults !! "yStrength" = Some (JNum (1 # 100)) ∧
   defaults !! "alphaDecay" = Some (JNum (2 # 100)) ∧
   defaults !! "velocityDecay" = Some (JNum (4 # 10)) ∧
   defaults !! "boundsPadding" = Some (JNum 10) ∧
   defaults !! "container" = Some (JStr "body")) ∧
  (options !! "container" = None →
   resolve options !! "container" = Some (JStr "body") ∧
   selector options = None ∧
   ∀ querySelector, container_size querySelector options = TypeError).
Proof.
  split; [apply resolve_omitted|]. split; [apply resolve_given|].
  split; [by vm_compute|].
  intros H. split; [by rewrite resolve_omitted|].
  split; [done|]. intros querySelector.
  unfold container_size, selector. by rewrite H.
Qed.

(** [mindgen(data)] in a document that has a body of 800 by 600. *)
Lemma resolve_defaults_witness :
  (∅ : gmap string jsval) !! "container" = None ∧
  resolve ∅ !! "container" = Some (JStr "body") ∧
  container_size (λ s, if bool_decide (s = "body") then Some (800, 600)%Q else None)
                 ∅ = TypeError.
Proof.
  split; [reflexivity|].
  destruct (resolve_defaults ∅) as (_ & _ & _ & H).
  destruct (H eq_refl) as (Hopts & _ & Hthrow).
  split; [exact Hopts | apply Hthrow].
Defined.

(** ** The background double-click *)

Lemma forEach_unpin_spec t (ns : list Sim.node) :
  forEach_unpin t ns =
  (foldl (λ t n, set_pinned (Sim.data n) false t) t ns,
   (λ n, Sim.mk (Sim.data n) (Sim.id n) (Sim.x n) (Sim.y n) None None) <$> ns).
Proof.
  revert t. induction ns as [|n ns IH]; intros t; simpl; [done|].
  by rewrite IH.
Qed.

(** Writing [pinned] at one position changes that flag and no other. *)
Lemma pinned_set_pinned p v : ∀ t q,
  pinned <$> node_at (set_pinned p v t) q =
  if decide (q = p) then (λ _, v) <$> node_at t q
  else pinned <$> node_at t q.
Proof.
  induction p as [|i p IH]; intros t q; simpl.
  - by destruct q as [|j q].
  - destruct (children t) as [cs|] eqn:Hc.
    + destruct (cs !! i) as [c|] eqn:Hi.
      * destruct q as [|j q]; simpl; [done|].
        destruct (decide (j = i)) as [->|Hne].
        -- rewrite Hc. simpl. rewrite list_lookup_insert_eq
             by (by eapply lookup_lt_Some). rewrite Hi. simpl.
           rewrite IH. destruct (decide (q = p)) as [->|Hq].
           ++ by rewrite decide_True.
           ++ rewrite decide_False; [done | congruence].
        -- rewrite Hc. simpl. rewrite list_lookup_insert_ne by done.
           rewrite decide_False; [done | congruence].
      * destruct (decide (q = i :: p)) as [->|]; [|done].
        simpl. rewrite Hc. simpl. by rewrite Hi.
    + destruct (decide (q = i :: p)) as [->|]; [|done].
      simpl. by rewrite Hc.
Qed.

Lemma node_at_set_pinned_is_Some p v t q :
  is_Some (node_at (set_pinned p v t) q) ↔ is_Some (node_at t q).
Proof.
  rewrite <- !(fmap_is_Some pinned), pinned_set_pinned.
  destruct (decide _); by rewrite !fmap_is_Some.
Qed.

Lemma unpin_all_pinned (ns : list Sim.node) : ∀ t q,
  is_Some (node_at t q) →
  (q ∈ Sim.data <$> ns ∨ pinned <$> node_at t q = Some false) →
  pinned <$> node_at (foldl (λ t n, set_pinned (Sim.data n) false t) t ns) q
  = Some false.
Proof.
  induction ns as [|n ns IH]; intros t q Hq H; simpl.
  - destruct H as [H|H]; [|done]. by apply elem_of_nil in H.
  - apply IH; [by apply node_at_set_pinned_is_Some|].
    rewrite pinned_set_pinned.
    destruct (decide (q = Sim.data n)) as [->|Hne].
    + right. by destruct Hq as [d ->].
    + destruct H as [H|H]; [|by right]. rewrite fmap_cons in H.
      apply elem_of_cons in H as [H|H]; [done | by left].
Qed.

Lemma unpin_all_is_Some (ns : list Sim.node) t q :
  is_Some (node_at (foldl (λ t n, set_pinned (Sim.data n) false t) t ns) q)
  ↔ is_Some (node_at t q).
Proof.
  revert t. induction ns as [|n ns IH]; intros t; simpl; [done|].
  by rewrite IH, node_at_set_pinned_is_Some.
Qed.

Lemma unpin_all_frame (ns : list Sim.node) : ∀ t q,
  q ∉ Sim.data <$> ns →
  pinned <$> node_at (foldl (λ t n, set_pinned (Sim.data n) false t) t ns) q
  = pinned <$> node_at t q.
Proof.
  induction ns as [|n ns IH]; intros t q Hq; simpl; [done|].
  rewrite fmap_cons in Hq. apply not_elem_of_cons in Hq as [Hne Hq].
  rewrite IH by done. rewrite pinned_set_pinned. by rewrite decide_False.
Qed.

(** Writing [pinned] through a child-index path never reaches below a
    [_children] field. *)
Lemma subtree_set_pinned_hidden (sp : list step) : ∀ p v d,
  (∃ i, Hidden i ∈ sp) →
  subtree (set_pinned p v d) sp = subtree d sp.
Proof.
  induction sp as [|[i|i] sp IH]; intros p v d [k Hk].
  - by apply elem_of_nil in Hk.
  - apply elem_of_cons in Hk as [Hk|Hk]; [done|].
    destruct p as [|j q]; simpl; [done|].
    destruct (children d) as [cs|] eqn:Hc; simpl; [|by rewrite Hc].
    destruct (cs !! j) as [c|] eqn:Hj; simpl; [|by rewrite Hc].
    destruct (decide (i = j)) as [->|Hne].
    + rewrite list_lookup_insert_eq by (by eapply lookup_lt_Some).
      rewrite Hj. simpl. apply IH. by exists k.
    + by rewrite list_lookup_insert_ne.
  - destruct p as [|j q]; simpl; [done|].
    destruct (children d) as [cs|]; simpl; [|done].
    by destruct (cs !! j).
Qed.

Lemma unpin_all_hidden (ns : list Sim.node) : ∀ t sp,
  (∃ i, Hidden i ∈ sp) →
  subtree (foldl (λ t n, set_pinned (Sim.data n) false t) t ns) sp
  = subtree t sp.
Proof.
  induction ns as [|n ns IH]; intros t sp Hsp; simpl; [done|].
  rewrite IH by done. by apply subtree_set_pinned_hidden.
Qed.

(** C8.  What a double-click on the background (not on a node) does.  The
    handler runs over [nodes], the simulation nodes of the render, which
    are the flattened ones: the datum of each gets [pinned = false] and
    each loses [fx] and [fy], identities and positions left alone; then
    the energy of the simulation is set to 0.4 and the simulation is
    restarted.  It does not clear all pins: no other flag of the data
    tree is written, and whatever is held under a [_children] field, at
    any depth, is as it was, its [pinned] flags included.  (A double-click
    that lands on a node is not handled here.) *)
Theorem dblclick_background_unpins_flattened (st : RenderState) :
  refs_ok st →
  let st' := on_container_dblclick false st in
  Forall (λ n, Sim.fx n = None ∧ Sim.fy n = None ∧
               pinned <$> node_data st' n = Some false) (nodes st') ∧
  (λ n, (Sim.data n, Sim.id n, Sim.x n, Sim.y n)) <$> nodes st' =
  (λ n, (Sim.data n, Sim.id n, Sim.x n, Sim.y n)) <$> nodes st ∧
  (∀ q, q ∉ Sim.data <$> nodes st →
        pinned <$> node_at (root_data st') q
        = pinned <$> node_at (root_data st) q) ∧
  (∀ sp, (∃ i, Hidden i ∈ sp) →
         subtree (root_data st') sp = subtree (root_data st) sp) ∧
  alpha st' = (4 # 10)%Q ∧ running st' = true ∧
  refs_ok st' ∧
  on_container_dblclick true st = st.
Proof.
  intros Hok st'. unfold st', on_container_dblclick.
  rewrite forEach_unpin_spec. unfold refs_ok, node_data in *. simpl.
  split_and!; try done;
    [| |by apply unpin_all_frame|by apply unpin_all_hidden|].
  - apply Forall_fmap, Forall_forall. intros n Hn. simpl.
    split_and!; try done.
    rewrite Forall_forall in Hok. apply unpin_all_pinned; [by apply Hok|].
    left. by apply list_elem_of_fmap_2.
  - by rewrite <- list_fmap_compose.
  - apply Forall_fmap. eapply Forall_impl; [exact Hok|].
    intros n Hn. simpl. by apply unpin_all_is_Some.
Qed.

Section render_facts.
Variable dom : string → option Rect.
Variable containerRect : Rect.
Variable cwidth cheight : Q.
Variable random : nat → Q.


End render_facts.

(** A pin under a collapsed node survives the double-click.  The tree is
    a root whose child [b] is collapsed over the pinned node [p]; the
    render has the two nodes [root] and [b].  After a double-click on the
    background [p] still has [pinned = true], and the click on the toggle
    of [b] that follows brings [p] back fixed. *)
Lemma dblclick_background_unpins_flattened_witness :
  let st' := on_container_dblclick false hidden_pin_state in
  refs_ok hidden_pin_state ∧
  Sim.id <$> nodes hidden_pin_state = ["root"; "b"] ∧
  pinned <$> subtree (root_data st') [Child 0; Hidden 0] = Some true ∧
  (λ n, (Sim.id n, bool_decide (is_Some (Sim.fx n))))
    <$> nodes (on_toggle_click (λ _, None) (mkRect 0 0 800 600) 800 600
                               (λ _, 1 # 2) 1 st')
  = [("root", false); ("b", false); ("p", true)].
Proof.
  intros st'.
  assert (Hok : refs_ok hidden_pin_state).
  { unfold refs_ok, node_data. simpl.
    repeat (constructor; [by eexists|]). constructor. }
  split; [exact Hok|]. split; [reflexivity|]. split; [|reflexivity].
  destruct (dblclick_background_unpins_flattened hidden_pin_state Hok)
    as (_ & _ & _ & Hhidden & _).
  unfold st'. rewrite Hhidden; [reflexivity|].
  exists 0. apply elem_of_cons. right. apply elem_of_cons. by left.
Defined.

(** * Further properties of the code *)

(** ** The size cache of the collision force *)

Section measure_facts.
Variable dom : string → option Rect.

Lemma measure_keeps (ns : list Sim.node) : ∀ (cache : gmap string Box) k b,
  cache !! k = Some b → foldl (measure dom) cache ns !! k = Some b.
Proof.
  induction ns as [|n ns IH]; intros cache k b Hk; simpl; [done|].
  apply IH. unfold measure.
  destruct (cache !! Sim.id n) eqn:E; [done|].
  destruct (dom (Sim.id n)); [|done].
  rewrite lookup_insert_ne; [done|]. congruence.
Qed.

Lemma measure_new (ns : list Sim.node) : ∀ (cache : gmap string Box) k r,
  k ∈ Sim.id <$> ns → cache !! k = None → dom k = Some r →
  foldl (measure dom) cache ns !! k = Some (mkBox (width r) (height r)).
Proof.
  induction ns as [|n ns IH]; intros cache k r Hin Hk Hd; simpl.
  - by apply elem_of_nil in Hin.
  - rewrite fmap_cons in Hin. destruct (decide (Sim.id n = k)) as [<-|Hne].
    + apply measure_keeps. unfold measure. rewrite Hk, Hd.
      apply lookup_insert_eq.
    + apply elem_of_cons in Hin as [Hin|Hin]; [done|].
      apply IH; [done| |done]. unfold measure.
      destruct (cache !! Sim.id n); [done|].
      destruct (dom (Sim.id n)); [|done]. by rewrite lookup_insert_ne.
Qed.

Lemma measure_origin (ns : list Sim.node) : ∀ (cache : gmap string Box) k b,
  foldl (measure dom) cache ns !! k = Some b →
  cache !! k = Some b ∨
  (cache !! k = None ∧ k ∈ Sim.id <$> ns ∧
   ∃ r, dom k = Some r ∧ b = mkBox (width r) (height r)).
Proof.
  induction ns as [|n ns IH]; intros cache k b; simpl; [by left|].
  intros [H|(H & Hin & r & Hd & ->)]%IH.
  - unfold measure in H. destruct (cache !! Sim.id n) eqn:E; [by left|].
    destruct (dom (Sim.id n)) as [r|] eqn:Hd; [|by left].
    destruct (decide (Sim.id n = k)) as [<-|Hne].
    + rewrite lookup_insert_eq in H. injection H as <-. right.
      split_and!; [done | csimpl; by left | by exists r].
    + rewrite lookup_insert_ne in H by done. by left.
  - right. assert (cache !! k = None) as Hk.
    { unfold measure in H. destruct (cache !! Sim.id n) eqn:E; [done|].
      destruct (dom (Sim.id n)); [|done].
      destruct (decide (Sim.id n = k)) as [<-|Hne]; [done|].
      by rewrite lookup_insert_ne in H. }
    split_and!; [done | csimpl; by right | by exists r].
Qed.
End measure_facts.

(** X1.  The size cache is filled lazily and never refreshed.  After an
    invocation of the force, a size that was cached before is still the
    cached one, whatever the document now says; a node of the array that
    was not cached and whose element exists has the width and height of
    that element; and nothing else enters the cache.  So sizes measured by
    one invocation are the ones used by every later invocation, under any
    later document. *)
Theorem measure_cache dom padding alpha (cache : gmap string Box)
    (simNodes : list Sim.node) :
  let cache' := (force dom padding alpha cache simNodes).1 in
  (∀ k b, cache !! k = Some b → cache' !! k = Some b) ∧
  (∀ k r, k ∈ Sim.id <$> simNodes → cache !! k = None → dom k = Some r →
          cache' !! k = Some (mkBox (width r) (height r))) ∧
  (∀ k b, cache' !! k = Some b →
          cache !! k = Some b ∨
          (k ∈ Sim.id <$> simNodes ∧
           ∃ r, dom k = Some r ∧ b = mkBox (width r) (height r))) ∧
  (∀ dom2 padding2 alpha2 (later : list Sim.node) k b,
     cache' !! k = Some b →
     (force dom2 padding2 alpha2 cache' later).1 !! k = Some b).
Proof.
  intros cache'. unfold cache', force. simpl. split_and!.
  - intros k b. apply measure_keeps.
  - intros k r. apply measure_new.
  - intros k b [H|(_ & Hin & Hr)]%measure_origin; [by left | by right].
  - intros dom2 _ _ later k b. apply measure_keeps.
Qed.

(** The element of ["a"] is 20 by 1000 at the first invocation and 300 by
    300 at the second: the second still uses 20 by 1000. *)
Lemma measure_cache_witness :
  let cache' := (force sample_dom 40 (1 # 2) ∅ two_nodes).1 in
  cache' !! "a" = Some (mkBox 20 1000) ∧
  (force (λ _, Some (mkRect 0 0 300 300)) 40 (1 # 2) cache' two_nodes).1 !! "a"
  = Some (mkBox 20 1000).
Proof.
  intros cache'.
  destruct (measure_cache sample_dom 40 (1 # 2) ∅ two_nodes)
    as (_ & Hnew & _ & Hlater).
  assert (H : cache' !! "a" = Some (mkBox 20 1000)).
  { apply (Hnew "a" (mkRect 0 0 20 1000)); [|reflexivity..].
    apply list_elem_of_In. simpl. by left. }
  split; [exact H|]. by apply Hlater.
Defined.

(** ** What an invocation of the force changes, and what it does not *)

Lemma foldM_preserves_in {A S} (P : S → Prop) (f : S → A → result S) l : ∀ s s',
  (∀ s a s', a ∈ l → f s a = Ok s' → P s → P s') →
  foldM f s l = Ok s' → P s → P s'.
Proof.
  induction l as [|a l IH]; intros s s' Hf; simpl; [by intros [= <-]|].
  destruct (f s a) as [s1|] eqn:E; simpl; [|done].
  intros H Hs. eapply (IH s1 s'); [|exact H|].
  - intros s0 a0 s0' Ha0. apply Hf. by right.
  - eapply Hf; [by left | exact E | exact Hs].
Qed.

Lemma foldM_fixed {A S} (f : S → A → result S) (s : S) l :
  (∀ a, a ∈ l → f s a = Ok s) → foldM f s l = Ok s.
Proof.
  induction l as [|a l IH]; intros Hf; simpl; [done|].
  rewrite (Hf a) by (by left). simpl. apply IH. intros a0 Ha0. apply Hf.
  by right.
Qed.

(** The outcome of a pair step: the array as it was, or the array with
    the two nodes of a measured pair replaced by their separation. *)
Lemma pair_step_cases padding alpha (measured : gmap string Box) i j
    (cur ns : list Sim.node) :
  pair_step padding alpha measured i j cur = Ok ns →
  ns = cur ∨
  ∃ a b A B, cur !! i = Some a ∧ cur !! j = Some b ∧
             measured !! Sim.id a = Some A ∧ measured !! Sim.id b = Some B ∧
             ns = <[j := (separate padding alpha A B a b).2]>
                    (<[i := (separate padding alpha A B a b).1]> cur).
Proof.
  intros H.
  destruct (cur !! i) as [a|] eqn:Hi; [|by unfold pair_step in H; rewrite Hi in H].
  destruct (cur !! j) as [b|] eqn:Hj;
    [|by unfold pair_step in H; rewrite Hi, Hj in H].
  destruct (measured !! Sim.id a) as [A|] eqn:HA.
  - destruct (measured !! Sim.id b) as [B|] eqn:HB.
    + right. exists a, b, A, B.
      rewrite (pair_step_separate padding alpha measured i j cur a b A B)
        in H by done. by injection H as <-.
    + left. rewrite (pair_step_skip padding alpha measured i j cur a b)
        in H by auto. by injection H as <-.
  - left. rewrite (pair_step_skip padding alpha measured i j cur a b)
      in H by auto. by injection H as <-.
Qed.

Lemma fmap_insert_same {A B} (f : A → B) (l : list A) i a a' :
  l !! i = Some a → f a' = f a → f <$> <[i := a']> l = f <$> l.
Proof.
  intros Hi Hf. rewrite list_fmap_insert, Hf. apply list_insert_id.
  by rewrite list_lookup_fmap, Hi.
Qed.

Lemma separate_frame padding alpha A B a b :
  frame (separate padding alpha A B a b).1 = frame a ∧
  frame (separate padding alpha A B a b).2 = frame b.
Proof.
  unfold frame.
  destruct (separate_same_nodes padding alpha A B a b)
    as (-> & -> & -> & -> & -> & -> & -> & ->). done.
Qed.

Lemma pair_step_frame padding alpha (measured : gmap string Box) i j
    (cur ns : list Sim.node) :
  pair_step padding alpha measured i j cur = Ok ns →
  frame <$> ns = frame <$> cur.
Proof.
  intros [->|(a & b & A & B & Hi & Hj & _ & _ & ->)]%pair_step_cases; [done|].
  destruct (separate_frame padding alpha A B a b) as [Ha Hb].
  destruct (decide (i = j)) as [->|Hij].
  - rewrite list_insert_insert_eq.
    by apply (fmap_insert_same frame cur j b).
  - rewrite (fmap_insert_same frame _ j b); [| |done].
    + by apply (fmap_insert_same frame cur i a).
    + by rewrite list_lookup_insert_ne.
Qed.

(** X2.  An invocation of the force only moves nodes: it returns an array
    of the same length in which every node has the [data], [id], [fx] and
    [fy] it had, in the same order.  In particular the force does not look
    at [fx] and [fy]: fixed nodes are pushed like the others. *)
Theorem force_moves_only dom padding alpha (cache : gmap string Box)
    (simNodes : list Sim.node) :
  ∃ ns, (force dom padding alpha cache simNodes).2 = Ok ns ∧
        length ns = length simNodes ∧
        frame <$> ns = frame <$> simNodes.
Proof.
  destruct (force_total dom padding alpha cache simNodes) as (ns & Hns & Hlen).
  exists ns. split_and!; [done..|].
  rewrite force_pairs in Hns.
  eapply (foldM_preserves (λ l, frame <$> l = frame <$> simNodes));
    [|exact Hns|done].
  intros s ij s' Hs Hf. rewrite <- Hf.
  exact (pair_step_frame _ _ _ _ _ _ _ Hs).
Qed.

(** X3.  A layout without overlap is a fixed point of the force: when no
    two measured nodes of the array overlap on both axes (padding
    included), an invocation returns the array exactly as it was, at any
    energy.  Arrays of fewer than two nodes are the trivial case. *)
Theorem force_fixed_point dom padding alpha (cache : gmap string Box)
    (simNodes : list Sim.node) :
  let cache' := (force dom padding alpha cache simNodes).1 in
  (∀ i j a b A B,
     i < j → simNodes !! i = Some a → simNodes !! j = Some b →
     cache' !! Sim.id a = Some A → cache' !! Sim.id b = Some B →
     (overlap_x padding A B a b <= 0)%Q ∨ (overlap_y padding A B a b <= 0)%Q) →
  (force dom padding alpha cache simNodes).2 = Ok simNodes.
Proof.
  intros cache' Hfree. rewrite force_pairs. fold cache'.
  apply foldM_fixed. intros [i j] [Hij Hj]%elem_pairs. simpl.
  destruct (lookup_lt_is_Some_2 simNodes i) as [a Ha]; [lia|].
  destruct (lookup_lt_is_Some_2 simNodes j) as [b Hb]; [lia|].
  destruct (cache' !! Sim.id a) as [A|] eqn:HA;
    [|by apply (pair_step_skip padding alpha _ i j simNodes a b); auto].
  destruct (cache' !! Sim.id b) as [B|] eqn:HB;
    [|by apply (pair_step_skip padding alpha _ i j simNodes a b); auto].
  rewrite (pair_step_separate padding alpha _ i j simNodes a b A B) by done.
  rewrite separate_none.
  - simpl. by rewrite (list_insert_id _ i a), (list_insert_id _ j b).
  - pose proof (overlapX_le padding A B a b).
    pose proof (overlapY_le padding A B a b).
    destruct (Hfree i j a b A B Hij Ha Hb HA HB); intros [??]; lra.
Qed.

Lemma force_fixed_point_witness :
  (force sample_dom 40 (1 # 2) ∅ apart_nodes).2 = Ok apart_nodes.
Proof.
  apply force_fixed_point.
  intros i j a b A B Hij Ha Hb HA HB.
  destruct i as [|[|i]], j as [|[|j]]; try lia; try done.
  injection Ha as <-. injection Hb as <-.
  vm_compute in HA, HB. injection HA as <-. injection HB as <-.
  left. vm_compute. discriminate.
Defined.

Lemma sum_x_insert (l : list Sim.node) : ∀ i a a',
  l !! i = Some a →
  (sum_x (<[i := a']> l) == sum_x l - Sim.x a + Sim.x a')%Q.
Proof.
  induction l as [|n l IH]; intros [|i] a a' Hi; simpl in *; try done.
  - injection Hi as ->. lra.
  - rewrite (IH i a a' Hi). lra.
Qed.

Lemma sum_y_insert (l : list Sim.node) : ∀ i a a',
  l !! i = Some a →
  (sum_y (<[i := a']> l) == sum_y l - Sim.y a + Sim.y a')%Q.
Proof.
  induction l as [|n l IH]; intros [|i] a a' Hi; simpl in *; try done.
  - injection Hi as ->. lra.
  - rewrite (IH i a a' Hi). lra.
Qed.

(** The two nodes of a pair are pushed by opposite amounts. *)
Lemma separate_sum padding alpha A B a b :
  let r := separate padding alpha A B a b in
  (Sim.x r.1 + Sim.x r.2 == Sim.x a + Sim.x b)%Q ∧
  (Sim.y r.1 + Sim.y r.2 == Sim.y a + Sim.y b)%Q.
Proof.
  unfold separate.
  destruct (Qlt_bool 0 _ && Qlt_bool 0 _); [|done].
  destruct (Qlt_bool _ _); unfold move_to; cbn [fst snd Sim.x Sim.y];
    split; field.
Qed.

Lemma pair_step_sum padding alpha (measured : gmap string Box) i j
    (cur ns : list Sim.node) :
  i ≠ j →
  pair_step padding alpha measured i j cur = Ok ns →
  (sum_x ns == sum_x cur)%Q ∧ (sum_y ns == sum_y cur)%Q.
Proof.
  intros Hij [->|(a & b & A & B & Hi & Hj & _ & _ & ->)]%pair_step_cases;
    [done|].
  destruct (separate_sum padding alpha A B a b) as [Hx Hy].
  assert (Hj' : <[i := (separate padding alpha A B a b).1]> cur !! j = Some b)
    by (by rewrite list_lookup_insert_ne).
  rewrite (sum_x_insert _ j b _ Hj'), (sum_x_insert _ i a _ Hi).
  rewrite (sum_y_insert _ j b _ Hj'), (sum_y_insert _ i a _ Hi).
  split; lra.
Qed.

(** X4.  The force does not shift the layout: the nodes of a pair are
    pushed by opposite amounts, so after an invocation the sum of the x
    coordinates of the array, and the sum of its y coordinates, are what
    they were (the centroid stays in place). *)
Theorem force_keeps_centroid dom padding alpha (cache : gmap string Box)
    (simNodes : list Sim.node) :
  ∃ ns, (force dom padding alpha cache simNodes).2 = Ok ns ∧
        (sum_x ns == sum_x simNodes)%Q ∧ (sum_y ns == sum_y simNodes)%Q.
Proof.
  destruct (force_total dom padding alpha cache simNodes) as (ns & Hns & _).
  exists ns. split; [done|]. rewrite force_pairs in Hns.
  eapply (foldM_preserves_in
            (λ l, (sum_x l == sum_x simNodes)%Q ∧ (sum_y l == sum_y simNodes)%Q));
    [|exact Hns|done].
  intros s [i j] s' [Hij _]%elem_pairs Hs [Hx Hy]. simpl in Hs.
  destruct (pair_step_sum _ _ _ i j s s' ltac:(lia) Hs) as [Hx' Hy'].
  split; [by rewrite Hx' | by rewrite Hy'].
Qed.

(** ** The collapse toggle *)

(** X5.  A click on a toggle flips it.  A node that shows a toggle (it has
    children, or it is collapsed) still shows one after the click, its
    collapsed state is the opposite and the label changes between ["+"]
    and ["–"]; its [id], [text] and [pinned] are untouched, and when at
    most one of [children] / [_children] was present nothing it owns is
    lost. *)
Theorem toggle_flips (d : Node) :
  has_toggle d = true →
  has_toggle (toggle d) = true ∧
  isCollapsed (toggle d) = negb (isCollapsed d) ∧
  toggle_text (toggle d) ≠ toggle_text d ∧
  id (toggle d) = id d ∧ text (toggle d) = text d ∧
  pinned (toggle d) = pinned d ∧
  (inv_node d → Forall inv_node (arr (_children d)) →
   skeleton (toggle d) = skeleton d).
Proof.
  intros H.
  assert (Hskel : inv_node d → Forall inv_node (arr (_children d)) →
                  skeleton (toggle d) = skeleton d).
  { intros Hd Hh. unfold toggle. destruct (children d) eqn:E.
    - by apply collapse_skeleton.
    - by apply expandOne_skeleton. }
  destruct d as [i t p [[|c cs]|] [[|x hs]|]];
    unfold has_toggle, toggle_text, isCollapsed, hasChildren, toggle,
      collapse, expandOne in *; simpl in *; try done.
Qed.

Lemma toggle_flips_witness :
  has_toggle collapsed_node = true ∧
  isCollapsed collapsed_node = true ∧
  isCollapsed (toggle collapsed_node) = false.
Proof.
  split; [reflexivity|]. split; [reflexivity|].
  destruct (toggle_flips collapsed_node eq_refl) as (_ & H & _). exact H.
Defined.

(** *** Changing the tree at a position *)

Lemma node_at_update_at_below p f : ∀ T d r,
  node_at T p = Some d →
  node_at (update_at p f T) (p ++ r) = node_at (f d) r.
Proof.
  induction p as [|i p IH]; intros T d r; simpl.
  - by intros [= ->].
  - destruct (children T) as [cs|] eqn:Hc; simpl; [|done].
    destruct (cs !! i) as [c|] eqn:Hi; simpl; [|done].
    intros Hd. rewrite list_lookup_insert_eq by (by eapply lookup_lt_Some).
    simpl. by apply IH.
Qed.

Lemma node_at_update_at_aside p f : ∀ T q,
  ¬ p `prefix_of` q →
  is_Some (node_at (update_at p f T) q) ↔ is_Some (node_at T q).
Proof.
  induction p as [|i p IH]; intros T q Hpq.
  - destruct Hpq. apply prefix_nil.
  - simpl. destruct (children T) as [cs|] eqn:Hc; [|done].
    destruct (cs !! i) as [c|] eqn:Hi; [|done].
    destruct q as [|j q]; simpl; [by split; eexists|]. rewrite Hc. simpl.
    destruct (decide (j = i)) as [->|Hne].
    + rewrite list_lookup_insert_eq by (by eapply lookup_lt_Some).
      rewrite Hi. simpl. apply IH. intros Hp. apply Hpq.
      by apply prefix_cons.
    + by rewrite list_lookup_insert_ne.
Qed.

Lemma elem_paths_descendants T q :
  q ∈ path <$> descendants T ↔ is_Some (node_at T q).
Proof.
  rewrite list_elem_of_fmap. split.
  - intros (h & -> & Hh).
    apply elem_descendants, wraps_sound in Hh as (q & Hq & Hn & _).
    simpl in Hq. subst q. by eexists.
  - intros [n Hn].
    destruct (wraps_complete T None [] q n Hn) as (h & Hw & Hp & _).
    exists h. split; [done | by apply elem_descendants].
Qed.

(** X6.  What a click on a toggle does to the flattening of the next
    render.  Toggling a flattened node that has [children] removes from
    the flattening exactly the nodes strictly below it and keeps every
    other node; toggling a node without [children] whose [_children] holds
    [hs] adds exactly its direct children, one per entry of [hs], and
    keeps every node that was there; a node with neither field is left as
    it is. *)
Theorem toggle_flattening (T : Node) (p : list nat) (d : Node) :
  node_at T p = Some d →
  (∀ cs, children d = Some cs →
     ∀ q, q ∈ path <$> descendants (update_at p toggle T) ↔
          q ∈ path <$> descendants T ∧ ¬ ∃ i r, q = p ++ i :: r) ∧
  (∀ hs, children d = None → _children d = Some hs →
     ∀ q, q ∈ path <$> descendants (update_at p toggle T) ↔
          q ∈ path <$> descendants T ∨ ∃ i, q = p ++ [i] ∧ i < length hs) ∧
  (children d = None → _children d = None →
     descendants (update_at p toggle T) = descendants T).
Proof.
  intros Hd. split_and!.
  - intros cs Hc q. rewrite !elem_paths_descendants.
    destruct (decide (p `prefix_of` q)) as [[r ->]|Hpq].
    + rewrite (node_at_update_at_below p toggle T d r Hd).
      unfold toggle, collapse. rewrite Hc.
      destruct r as [|i r]; simpl.
      * rewrite app_nil_r, Hd. split; [|by eexists].
        intros _. split; [by eexists|]. intros (i & r & E).
        apply (f_equal length) in E. rewrite length_app in E. simpl in E. lia.
      * split; [by intros [? [=]]|]. intros [_ []]. by exists i, r.
    + rewrite node_at_update_at_aside by done. split; [|tauto].
      intros H. split; [done|]. intros (i & r & ->). apply Hpq.
      by exists (i :: r).
  - intros hs Hc Hh q. rewrite !elem_paths_descendants.
    destruct (decide (p `prefix_of` q)) as [[r ->]|Hpq].
    + rewrite (node_at_update_at_below p toggle T d r Hd).
      assert (Hbefore : node_at T (p ++ r) = x ← Some d; node_at x r).
      { clear -Hd. revert T Hd. induction p as [|i p IH]; intros T; simpl.
        - by intros [= ->].
        - destruct (arr (children T) !! i); simpl; [apply IH | done]. }
      rewrite Hbefore. simpl.
      unfold toggle, expandOne. rewrite Hc, Hh.
      destruct r as [|i r]; simpl.
      * split; [by left; eexists | by eexists].
      * rewrite Hc. simpl. rewrite list_lookup_fmap.
        destruct (hs !! i) as [c|] eqn:Hi; simpl.
        -- destruct r as [|j r]; simpl.
           ++ split; [|by eexists]. intros _. right. exists i.
              split; [done | by eapply lookup_lt_Some].
           ++ rewrite recollapse_children. simpl. split; [by intros [? [=]]|].
              intros [[? [=]]|(k & E & _)].
              apply (inj (app p)) in E. done.
        -- split; [by intros [? [=]]|].
           intros [[? [=]]|(k & E & Hk)].
           apply (inj (app p)) in E. injection E as -> ->.
           apply lookup_ge_None in Hi. lia.
    + rewrite node_at_update_at_aside by done. split; [by left|].
      intros [H|(i & -> & _)]; [done|]. destruct Hpq. by exists [i].
  - intros Hc Hh. f_equal.
    assert (Htog : toggle d = d) by (unfold toggle, expandOne; by rewrite Hc, Hh).
    clear Hc Hh. revert T Hd. induction p as [|i p IH]; intros T; simpl.
    + by intros [= ->].
    + destruct T as [ti tt tp [cs|] th]; simpl; [|done].
      destruct (cs !! i) as [c|] eqn:Hi; simpl; [|done].
      intros Hd. rewrite (IH c Hd). by rewrite list_insert_id.
Qed.

(** Collapsing [a] in the sample tree hides [a2] and keeps the leaf [c]. *)
Lemma toggle_flattening_witness :
  node_at sample_tree [0]
  = Some (mkNode (Some "a") "A" false (Some [leaf "a1"; leaf "a2"]) None) ∧
  [0; 1] ∈ path <$> descendants sample_tree ∧
  ([0; 1] ∉ path <$> descendants (update_at [0] toggle sample_tree)) ∧
  [2] ∈ path <$> descendants (update_at [0] toggle sample_tree).
Proof.
  split; [reflexivity|].
  destruct (toggle_flattening sample_tree [0] _ eq_refl) as (Hc & _ & _).
  specialize (Hc _ eq_refl).
  assert (H01 : [0; 1] ∈ path <$> descendants sample_tree)
    by (apply list_elem_of_In; vm_compute; tauto).
  assert (H2 : [2] ∈ path <$> descendants sample_tree)
    by (apply list_elem_of_In; vm_compute; tauto).
  split; [exact H01|]. split.
  - intros [_ Hnot]%Hc. apply Hnot. by exists 1, [].
  - apply Hc. split; [exact H2|]. intros (i & r & [=]).
Defined.

(** ** Placing the nodes *)

Section place_facts.
Variable dom : string → option Rect.
Variable containerRect : Rect.
Variable cwidth cheight : Q.
Variable random : nat → Q.

Lemma place_all_lookup (hs : list HNode) : ∀ k index j n,
  place_all dom containerRect cwidth cheight random k index hs !! j = Some n →
  ∃ h k', hs !! j = Some h ∧
          n = (place dom containerRect cwidth cheight random k' h (index + j)).1.
Proof.
  induction hs as [|h hs IH]; intros k index j n; simpl; [done|].
  destruct (place dom containerRect cwidth cheight random k h index)
    as [n0 k0] eqn:E.
  destruct j as [|j]; simpl.
  - intros [= <-]. exists h, k. by rewrite Nat.add_0_r, E.
  - intros (h' & k' & Hh & ->)%IH. exists h', k'.
    by rewrite Nat.add_succ_r.
Qed.

Lemma length_place_all (hs : list HNode) : ∀ k index,
  length (place_all dom containerRect cwidth cheight random k index hs)
  = length hs.
Proof.
  induction hs as [|h hs IH]; intros k index; simpl; [done|].
  destruct (place _ _ _ _ _ _ _ _). simpl. by rewrite IH.
Qed.

(** The simulation nodes of a render: one per flattened node, fixed
    exactly when the datum is pinned. *)
Lemma mindgen_nodes (hierarchyData : Node) :
  let st := mindgen dom containerRect cwidth cheight random hierarchyData in
  root_data st = hierarchyData ∧ measured st = ∅ ∧
  alpha st = (8 # 10)%Q ∧ running st = true ∧
  length (nodes st) = length (descendants hierarchyData) ∧
  ∀ j n, nodes st !! j = Some n →
    ∃ h, descendants hierarchyData !! j = Some h ∧
         Sim.data n = path h ∧ node_data st n = Some (data h) ∧
         Sim.id n = node_id (data h) j ∧
         (pinned (data h) = true →
            Sim.fx n = Some (Sim.x n) ∧ Sim.fy n = Some (Sim.y n)) ∧
         (pinned (data h) = false → Sim.fx n = None ∧ Sim.fy n = None).
Proof.
  intros st. unfold st, mindgen, initialize. simpl.
  split_and!; try done; [apply length_place_all|].
  intros j n (h & k & Hh & ->)%place_all_lookup. exists h.
  split; [done|]. simpl in *.
  assert (Hdata : node_at hierarchyData (path h) = Some (data h)).
  { apply list_elem_of_lookup_2, elem_descendants, wraps_sound in Hh
      as (q & Hq & Hn & _). simpl in Hq. by subst q. }
  unfold node_data, place. simpl.
  destruct (dom (node_id (data h) j)) as [r|]; simpl;
    split_and!; try done; by destruct (pinned (data h)).
Qed.

(** X7.  How a render seeds the simulation.  There is one simulation node
    per flattened node, in the same order, holding a reference to its
    datum and the id [node.data.id || `node-${index}`].  A node whose
    element already exists starts at the centre of that element, taken
    relative to the container; a node without element starts within 100
    of the centre of the container on each axis (for [Math.random()] in
    [0, 1)).  A node whose datum is pinned starts fixed at its starting
    position, any other node starts free.  The size cache is empty and
    the energy is 0.8. *)
Theorem mindgen_seeds (hierarchyData : Node) :
  let st := mindgen dom containerRect cwidth cheight random hierarchyData in
  root_data st = hierarchyData ∧ measured st = ∅ ∧
  alpha st = (8 # 10)%Q ∧ running st = true ∧
  length (nodes st) = length (descendants hierarchyData) ∧
  ∀ j n, nodes st !! j = Some n →
    ∃ h, descendants hierarchyData !! j = Some h ∧
         Sim.data n = path h ∧ node_data st n = Some (data h) ∧
         Sim.id n = node_id (data h) j ∧
         (∀ r, dom (Sim.id n) = Some r →
            Sim.x n = (left r - left containerRect + width r / 2)%Q ∧
            Sim.y n = (top r - top containerRect + height r / 2)%Q) ∧
         (dom (Sim.id n) = None →
            (∀ k, 0 <= random k ∧ random k < 1)%Q →
            (cwidth / 2 - 100 <= Sim.x n ∧ Sim.x n < cwidth / 2 + 100)%Q ∧
            (cheight / 2 - 100 <= Sim.y n ∧ Sim.y n < cheight / 2 + 100)%Q) ∧
         (pinned (data h) = true →
            Sim.fx n = Some (Sim.x n) ∧ Sim.fy n = Some (Sim.y n)) ∧
         (pinned (data h) = false → Sim.fx n = None ∧ Sim.fy n = None).
Proof.
  intros st. unfold st, mindgen, initialize. simpl.
  split_and!; try done; [apply length_place_all|].
  intros j n (h & k & Hh & ->)%place_all_lookup. exists h.
  split; [done|]. simpl in *.
  assert (Hdata : node_at hierarchyData (path h) = Some (data h)).
  { apply list_elem_of_lookup_2, elem_descendants, wraps_sound in Hh
      as (q & Hq & Hn & _). simpl in Hq. by subst q. }
  unfold node_data, place. simpl.
  destruct (dom (node_id (data h) j)) as [r|] eqn:Hd; simpl.
  - split_and!; try done; try (by destruct (pinned (data h))).
    + intros r' Hr'. rewrite Hd in Hr'. by injection Hr' as <-.
    + intros Hn. by rewrite Hd in Hn.
  - split_and!; try done; try (by destruct (pinned (data h))).
    + intros r' Hr'. by rewrite Hd in Hr'.
    + intros _ Hr.
      pose proof (Hr k) as [??]. pose proof (Hr (S k)) as [??]. split; lra.
Qed.
End place_facts.

Lemma mindgen_seeds_witness :
  ∃ n, nodes pinned_state !! 1 = Some n ∧
       Sim.data n = [0] ∧ Sim.id n = "p" ∧
       Sim.fx n = Some (Sim.x n) ∧ Sim.fy n = Some (Sim.y n).
Proof.
  destruct (mindgen_seeds (λ _, None) (mkRect 0 0 800 600) 800 600 (λ _, 1 # 2)
              pinned_tree) as (_ & _ & _ & _ & _ & H).
  eexists. split; [reflexivity|].
  destruct (H 1 _ eq_refl) as (h & Hh & Hd & _ & Hi & _ & _ & Hp & _).
  injection Hh as <-. split; [exact Hd|]. split; [exact Hi|].
  exact (Hp eq_refl).
Defined.

(** ** Pins across a toggle *)





Section toggle_click_facts.
Variable dom : string → option Rect.
Variable containerRect : Rect.
Variable cwidth cheight : Q.
Variable random : nat → Q.

End toggle_click_facts.


(** ** Drag and double-click on a node *)

Lemma set_pinned_same p v : ∀ T d,
  node_at T p = Some d → pinned d = v → set_pinned p v T = T.
Proof.
  induction p as [|i p IH]; intros T d; simpl.
  - intros [= ->] <-. by destruct d.
  - destruct T as [ti tt tp [cs|] th]; simpl; [|done].
    destruct (cs !! i) as [c|] eqn:Hi; simpl; [|done].
    intros Hd Hv. rewrite (IH c d Hd Hv). by rewrite list_insert_id.
Qed.

Lemma set_pinned_twice p v v' : ∀ T,
  set_pinned p v (set_pinned p v' T) = set_pinned p v T.
Proof.
  induction p as [|i p IH]; intros T; simpl; [done|].
  destruct (children T) as [cs|] eqn:Hc; [|by rewrite Hc].
  destruct (cs !! i) as [c|] eqn:Hi; [|by rewrite Hc, Hi].
  simpl. rewrite list_lookup_insert_eq by (by eapply lookup_lt_Some).
  by rewrite list_insert_insert_eq, IH.
Qed.

(** *** What the writes of the listeners change *)

Lemma simulations_set_node j n pg c' :
  simulations (set_node j n pg) !! c'
  = (λ s, if decide (c' = latest pg)
          then mkSimulation (<[j := n]> (sim_nodes s)) (sim_measured s)
                            (sim_alpha s) (sim_alphaTarget s) (sim_running s)
          else s) <$> simulations pg !! c'.
Proof.
  unfold set_node. simpl. destruct (decide (c' = latest pg)) as [->|Hne].
  - by rewrite list_lookup_alter_eq.
  - rewrite list_lookup_alter_ne by done. by destruct (simulations pg !! c').
Qed.

Lemma simulations_set_alpha c a pg c' :
  simulations (set_alpha c a pg) !! c'
  = (λ s, if decide (c' = c)
          then mkSimulation (sim_nodes s) (sim_measured s) a
                            (sim_alphaTarget s) (sim_running s)
          else s) <$> simulations pg !! c'.
Proof.
  unfold set_alpha. simpl. destruct (decide (c' = c)) as [->|Hne].
  - by rewrite list_lookup_alter_eq.
  - rewrite list_lookup_alter_ne by done. by destruct (simulations pg !! c').
Qed.

Lemma simulations_set_alphaTarget c a pg c' :
  simulations (set_alphaTarget c a pg) !! c'
  = (λ s, if decide (c' = c)
          then mkSimulation (sim_nodes s) (sim_measured s) (sim_alpha s) a
                            (sim_running s)
          else s) <$> simulations pg !! c'.
Proof.
  unfold set_alphaTarget. simpl. destruct (decide (c' = c)) as [->|Hne].
  - by rewrite list_lookup_alter_eq.
  - rewrite list_lookup_alter_ne by done. by destruct (simulations pg !! c').
Qed.

Lemma simulations_restart c pg c' :
  simulations (restart c pg) !! c'
  = (λ s, if decide (c' = c)
          then mkSimulation (sim_nodes s) (sim_measured s) (sim_alpha s)
                            (sim_alphaTarget s) true
          else s) <$> simulations pg !! c'.
Proof.
  unfold restart. simpl. destruct (decide (c' = c)) as [->|Hne].
  - by rewrite list_lookup_alter_eq.
  - rewrite list_lookup_alter_ne by done. by destruct (simulations pg !! c').
Qed.

Lemma latest_set_node j n pg : latest (set_node j n pg) = latest pg.
Proof. unfold latest, set_node. simpl. by rewrite length_alter. Qed.

Lemma latest_set_alpha c a pg : latest (set_alpha c a pg) = latest pg.
Proof. unfold latest, set_alpha. simpl. by rewrite length_alter. Qed.

Lemma latest_set_alphaTarget c a pg : latest (set_alphaTarget c a pg) = latest pg.
Proof. unfold latest, set_alphaTarget. simpl. by rewrite length_alter. Qed.

Lemma latest_restart c pg : latest (restart c pg) = latest pg.
Proof. unfold latest, restart. simpl. by rewrite length_alter. Qed.

Lemma bound_set_alpha c a pg k : bound (set_alpha c a pg) k = bound pg k.
Proof.
  unfold bound. rewrite latest_set_alpha, simulations_set_alpha.
  destruct (simulations pg !! latest pg) as [s|]; simpl; [|done].
  by destruct (decide _).
Qed.

Lemma bound_set_alphaTarget c a pg k :
  bound (set_alphaTarget c a pg) k = bound pg k.
Proof.
  unfold bound. rewrite latest_set_alphaTarget, simulations_set_alphaTarget.
  destruct (simulations pg !! latest pg) as [s|]; simpl; [|done].
  by destruct (decide _).
Qed.

Lemma bound_restart c pg k : bound (restart c pg) k = bound pg k.
Proof.
  unfold bound. rewrite latest_restart, simulations_restart.
  destruct (simulations pg !! latest pg) as [s|]; simpl; [|done].
  by destruct (decide _).
Qed.

Lemma bound_set_node j n pg k m :
  bound pg j = Some m →
  bound (set_node j n pg) k = if decide (k = j) then Some n else bound pg k.
Proof.
  unfold bound. rewrite latest_set_node, simulations_set_node.
  destruct (simulations pg !! latest pg) as [s|]; simpl; [|done].
  rewrite decide_True by done. simpl. intros Hm.
  destruct (decide (k = j)) as [->|Hne].
  - apply list_lookup_insert_eq. by eapply lookup_lt_Some.
  - by apply list_lookup_insert_ne.
Qed.

Lemma simulations_set_data_pinned n v pg :
  simulations (set_data_pinned n v pg) = simulations pg.
Proof. done. Qed.

Lemma latest_set_data_pinned n v pg : latest (set_data_pinned n v pg) = latest pg.
Proof. done. Qed.

Ltac page_lookup pg c' :=
  repeat first
    [ rewrite simulations_set_node | rewrite simulations_restart
    | rewrite simulations_set_alpha | rewrite simulations_set_alphaTarget
    | rewrite simulations_set_data_pinned | rewrite latest_set_node
    | rewrite latest_restart | rewrite latest_set_alpha
    | rewrite latest_set_alphaTarget | rewrite latest_set_data_pinned ];
  rewrite <- ?option_fmap_compose;
  destruct (simulations pg !! c') as [?s|]; [|done];
  cbn [fmap option_fmap option_map];
  unfold compose; repeat case_decide; repeat case_bool_decide;
  try done; try tauto; try lia.

Lemma length_setters c a j n v pg :
  length (simulations (set_node j n pg)) = length (simulations pg) ∧
  length (simulations (set_alpha c a pg)) = length (simulations pg) ∧
  length (simulations (set_alphaTarget c a pg)) = length (simulations pg) ∧
  length (simulations (restart c pg)) = length (simulations pg) ∧
  length (simulations (set_data_pinned n v pg)) = length (simulations pg).
Proof.
  unfold set_node, set_alpha, set_alphaTarget, restart, set_data_pinned.
  simpl. by rewrite !length_alter.
Qed.

Lemma dragstarted_writes active c j pg n :
  bound pg j = Some n →
  let pg' := dragstarted active c j pg in
  tree pg' = tree pg ∧
  bound pg' j = Some (fix_at n (Some (Sim.x n)) (Some (Sim.y n))) ∧
  (∀ c', energy <$> simulations pg' !! c'
         = (λ s, if bool_decide (c' = c ∧ active = 0)
                 then (sim_alpha s, (3 # 10)%Q, true) else energy s)
             <$> simulations pg !! c') ∧
  same_but j pg pg'.
Proof.
  intros Hb pg'. unfold pg', dragstarted. rewrite Hb.
  destruct (bool_decide (active = 0)) eqn:Ha.
  - apply bool_decide_eq_true in Ha.
    assert (Hb1 : bound (restart c (set_alphaTarget c (3 # 10) pg)) j = Some n)
      by (by rewrite bound_restart, bound_set_alphaTarget).
    split; [done|]. split; [by rewrite (bound_set_node _ _ _ _ n), decide_True|].
    split; [intros c'; page_lookup pg c'|].
    unfold same_but. split_and!; [done | | | |].
    + unfold set_node, restart, set_alphaTarget. simpl. by rewrite !length_alter.
    + intros k Hk. rewrite (bound_set_node _ _ _ _ n), decide_False by done.
      by rewrite bound_restart, bound_set_alphaTarget.
    + intros c' Hc'. page_lookup pg c'.
    + intros c'. page_lookup pg c'.
  - apply bool_decide_eq_false in Ha.
    split; [done|]. split; [by rewrite (bound_set_node _ _ _ _ n), decide_True|].
    split; [intros c'; page_lookup pg c'|].
    unfold same_but. split_and!; [done | | | |].
    + unfold set_node. simpl. by rewrite !length_alter.
    + intros k Hk. by rewrite (bound_set_node _ _ _ _ n), decide_False.
    + intros c' Hc'. page_lookup pg c'.
    + intros c'. page_lookup pg c'.
Qed.

Lemma dragged_writes ex ey j pg n :
  bound pg j = Some n →
  let pg' := dragged ex ey j pg in
  tree pg' = tree pg ∧
  bound pg' j = Some (fix_at n (Some ex) (Some ey)) ∧
  (∀ c', energy <$> simulations pg' !! c' = energy <$> simulations pg !! c') ∧
  same_but j pg pg'.
Proof.
  intros Hb pg'. unfold pg', dragged. rewrite Hb.
  split; [done|]. split; [by rewrite (bound_set_node _ _ _ _ n), decide_True|].
  split; [intros c'; page_lookup pg c'|].
  unfold same_but. split_and!; [done | | | |].
  - unfold set_node. simpl. by rewrite !length_alter.
  - intros k Hk. by rewrite (bound_set_node _ _ _ _ n), decide_False.
  - intros c' Hc'. page_lookup pg c'.
  - intros c'. page_lookup pg c'.
Qed.

Lemma dragended_writes active c j pg n :
  bound pg j = Some n →
  let pg' := dragended active c j pg in
  tree pg' = set_pinned (Sim.data n) true (tree pg) ∧
  bound pg' j = Some (fix_at n (Some (Sim.x n)) (Some (Sim.y n))) ∧
  (∀ c', energy <$> simulations pg' !! c'
         = (λ s, if bool_decide (c' = c ∧ active = 0)
                 then (sim_alpha s, 0%Q, sim_running s) else energy s)
             <$> simulations pg !! c') ∧
  same_but j pg pg'.
Proof.
  intros Hb pg'. unfold pg', dragended. rewrite Hb.
  destruct (bool_decide (active = 0)) eqn:Ha.
  - apply bool_decide_eq_true in Ha.
    assert (Hb1 : bound (set_data_pinned n true (set_alphaTarget c 0 pg)) j
                  = Some n) by (by rewrite <- (bound_set_alphaTarget c 0 pg j) in Hb).
    split; [done|]. split; [by rewrite (bound_set_node _ _ _ _ n), decide_True|].
    split; [intros c'; page_lookup pg c'|].
    unfold same_but. split_and!; [done | | | |].
    + unfold set_node, set_data_pinned, set_alphaTarget. simpl.
      by rewrite !length_alter.
    + intros k Hk. rewrite (bound_set_node _ _ _ _ n), decide_False by done.
      apply (bound_set_alphaTarget c 0 pg k).
    + intros c' Hc'. page_lookup pg c'.
    + intros c'. page_lookup pg c'.
  - apply bool_decide_eq_false in Ha.
    assert (Hb1 : bound (set_data_pinned n true pg) j = Some n) by done.
    split; [done|]. split; [by rewrite (bound_set_node _ _ _ _ n), decide_True|].
    split; [intros c'; page_lookup pg c'|].
    unfold same_but. split_and!; [done | | | |].
    + unfold set_node. simpl. by rewrite !length_alter.
    + intros k Hk. by rewrite (bound_set_node _ _ _ _ n), decide_False.
    + intros c' Hc'. page_lookup pg c'.
    + intros c'. page_lookup pg c'.
Qed.

Lemma on_node_dblclick_writes c j pg n :
  bound pg j = Some n →
  let pg' := on_node_dblclick c j pg in
  tree pg' = set_pinned (Sim.data n) false (tree pg) ∧
  bound pg' j = Some (fix_at n None None) ∧
  (∀ c', energy <$> simulations pg' !! c'
         = (λ s, if bool_decide (c' = c)
                 then ((4 # 10)%Q, sim_alphaTarget s, true) else energy s)
             <$> simulations pg !! c') ∧
  same_but j pg pg'.
Proof.
  intros Hb pg'. unfold pg', on_node_dblclick. rewrite Hb.
  assert (Hb1 : bound (set_data_pinned n false pg) j = Some n) by done.
  split; [done|].
  split; [by rewrite bound_restart, bound_set_alpha,
             (bound_set_node _ _ _ _ n), decide_True|].
  split; [intros c'; page_lookup pg c'|].
  unfold same_but. split_and!; [done | | | |].
  - unfold restart, set_alpha, set_node. simpl. by rewrite !length_alter.
  - intros k Hk. rewrite bound_restart, bound_set_alpha.
    by rewrite (bound_set_node _ _ _ _ n), decide_False.
  - intros c' Hc'. page_lookup pg c'.
  - intros c'. page_lookup pg c'.
Qed.

(** X9.  The drag listeners of an element created by call [c], called
    with the node bound to the element.  Starting a drag fixes the node
    where it is and, when no other gesture is under way, raises the
    energy target of the simulation of call [c] to 0.3 and restarts that
    simulation; it does not pin.  Moving sets [fx], [fy] to the pointer
    and touches no simulation.  Ending a drag always pins: the datum gets
    [pinned = true], no other flag of the tree is written, the node is
    fixed at the [x], [y] it has at that moment (the pointer is not read
    at release), and the energy target of the simulation of call [c]
    goes back to 0 when no other gesture is under way.  The simulation
    reached is the one of the call that created the element: when that
    is not the last call, the simulation that moves the node keeps its
    energy, its target and its timer as they are. *)
Theorem drag_pins (active c j : nat) (ex ey : Q) (pg : Page) (n : Sim.node) :
  bound pg j = Some n → is_Some (node_at (tree pg) (Sim.data n)) →
  let started := dragstarted active c j pg in
  let moved := dragged ex ey j pg in
  let ended := dragended active c j pg in
  (tree started = tree pg ∧
   bound started j = Some (fix_at n (Some (Sim.x n)) (Some (Sim.y n))) ∧
   (∀ c', energy <$> simulations started !! c'
          = (λ s, if bool_decide (c' = c ∧ active = 0)
                  then (sim_alpha s, (3 # 10)%Q, true) else energy s)
              <$> simulations pg !! c') ∧
   same_but j pg started) ∧
  (tree moved = tree pg ∧
   bound moved j = Some (fix_at n (Some ex) (Some ey)) ∧
   (∀ c', energy <$> simulations moved !! c' = energy <$> simulations pg !! c') ∧
   same_but j pg moved) ∧
  (bound ended j = Some (fix_at n (Some (Sim.x n)) (Some (Sim.y n))) ∧
   pinned <$> node_at (tree ended) (Sim.data n) = Some true ∧
   (∀ q, q ≠ Sim.data n →
         pinned <$> node_at (tree ended) q = pinned <$> node_at (tree pg) q) ∧
   (∀ c', energy <$> simulations ended !! c'
          = (λ s, if bool_decide (c' = c ∧ active = 0)
                  then (sim_alpha s, 0%Q, sim_running s) else energy s)
              <$> simulations pg !! c') ∧
   same_but j pg ended) ∧
  (c ≠ latest pg →
   energy <$> simulations started !! latest pg
   = energy <$> simulations pg !! latest pg ∧
   energy <$> simulations ended !! latest pg
   = energy <$> simulations pg !! latest pg).
Proof.
  intros Hb [d Hd] started moved ended.
  destruct (dragstarted_writes active c j pg n Hb) as (S1 & S2 & S3 & S4).
  destruct (dragged_writes ex ey j pg n Hb) as (M1 & M2 & M3 & M4).
  destruct (dragended_writes active c j pg n Hb) as (E1 & E2 & E3 & E4).
  fold started in S1, S2, S3, S4. fold moved in M1, M2, M3, M4.
  fold ended in E1, E2, E3, E4.
  split_and!; try done.
  - rewrite E1, pinned_set_pinned, decide_True by done. by rewrite Hd.
  - intros q Hq. by rewrite E1, pinned_set_pinned, decide_False.
  - intros Hc. rewrite S3, E3.
    destruct (simulations pg !! latest pg) as [s|]; [|done].
    simpl. assert (Hne : ¬ (latest pg = c ∧ active = 0)) by (by intros [? _]).
    by rewrite !bool_decide_false.
Qed.

(** On the first render the listeners reach the one simulation there is:
    a drag of the node [p] raises its target and ends with it at 0, the
    node fixed and its datum pinned. *)
Lemma drag_pins_witness :
  ∃ n, bound pinned_page 1 = Some n ∧
       Sim.id n = "p" ∧
       energy <$> simulations (dragstarted 0 0 1 pinned_page) !! 0
       = Some ((8 # 10)%Q, (3 # 10)%Q, true) ∧
       bound (dragended 0 0 1 pinned_page) 1
       = Some (fix_at n (Some (Sim.x n)) (Some (Sim.y n))).
Proof.
  eexists. split; [reflexivity|]. split; [reflexivity|].
  destruct (drag_pins 0 0 1 0 0 pinned_page _ eq_refl (ex_intro _ _ eq_refl))
    as ((_ & _ & Hs & _) & _ & (He & _) & _).
  split; [exact (Hs 0) | exact He].
Defined.

(** X10.  The double-click listener of an element created by call [c],
    called with the node bound to the element.  It releases that node
    only: its datum gets [pinned = false], its [fx] and [fy] become null,
    every other node and every other flag is left as it is.  The energy
    that is set to 0.4, with a restart, is the one of the simulation of
    call [c]: when that is not the last call, the simulation that moves
    the freed node is not reheated.  On a node whose datum was not
    pinned, the double-click gives back the data tree of before a drag,
    whatever the simulations did to the positions in between. *)
Theorem node_dblclick_releases (c j : nat) (pg : Page) (n : Sim.node) :
  bound pg j = Some n → is_Some (node_at (tree pg) (Sim.data n)) →
  let pg' := on_node_dblclick c j pg in
  bound pg' j = Some (fix_at n None None) ∧
  pinned <$> node_at (tree pg') (Sim.data n) = Some false ∧
  (∀ q, q ≠ Sim.data n →
        pinned <$> node_at (tree pg') q = pinned <$> node_at (tree pg) q) ∧
  (∀ c', energy <$> simulations pg' !! c'
         = (λ s, if bool_decide (c' = c)
                 then ((4 # 10)%Q, sim_alphaTarget s, true) else energy s)
             <$> simulations pg !! c') ∧
  same_but j pg pg' ∧
  (c ≠ latest pg →
   energy <$> simulations pg' !! latest pg
   = energy <$> simulations pg !! latest pg) ∧
  (pinned <$> node_at (tree pg) (Sim.data n) = Some false →
   ∀ active c1 c2 pg2 m,
     tree pg2 = tree (dragended active c1 j pg) →
     bound pg2 j = Some m → Sim.data m = Sim.data n →
     tree (on_node_dblclick c2 j pg2) = tree pg).
Proof.
  intros Hb [d Hd] pg'.
  destruct (on_node_dblclick_writes c j pg n Hb) as (T & B & E & F).
  fold pg' in T, B, E, F.
  split_and!; try done.
  - rewrite T, pinned_set_pinned, decide_True by done. by rewrite Hd.
  - intros q Hq. by rewrite T, pinned_set_pinned, decide_False.
  - intros Hc. rewrite E. destruct (simulations pg !! latest pg) as [s|]; [|done].
    simpl. by rewrite bool_decide_false.
  - intros Hp active c1 c2 pg2 m Ht Hm Hdata.
    destruct (on_node_dblclick_writes c2 j pg2 m Hm) as (T2 & _).
    destruct (dragended_writes active c1 j pg n Hb) as (T1 & _).
    rewrite T2, Ht, T1, Hdata, set_pinned_twice.
    rewrite Hd in Hp. injection Hp as Hp.
    by apply (set_pinned_same _ false _ d).
Qed.

(** On the first render a double-click on the pinned node [p] frees it
    and reheats the one simulation there is. *)
Lemma node_dblclick_releases_witness :
  ∃ n, bound pinned_page 1 = Some n ∧
       bound (on_node_dblclick 0 1 pinned_page) 1 = Some (fix_at n None None) ∧
       energy <$> simulations (on_node_dblclick 0 1 pinned_page) !! 0
       = Some ((4 # 10)%Q, 0%Q, true).
Proof.
  eexists. split; [reflexivity|].
  destruct (node_dblclick_releases 0 1 pinned_page _ eq_refl
              (ex_intro _ _ eq_refl)) as (Hb & _ & _ & He & _).
  split; [exact Hb | exact (He 0)].
Defined.

(** ** Listeners after a render *)

Lemma join_lookup k (old : gmap string nat) ids i :
  join k old ids !! i
  = if decide (i ∈ ids) then Some (default k (old !! i)) else None.
Proof.
  unfold join. induction ids as [|i0 ids IH]; [done|].
  rewrite fmap_cons, list_to_map_cons.
  destruct (decide (i = i0)) as [->|Hne].
  - rewrite lookup_insert_eq, decide_True; [done|]. by left.
  - rewrite lookup_insert_ne, IH by done.
    destruct (decide (i ∈ ids)) as [Hin|Hin].
    + rewrite decide_True; [done|]. by right.
    + rewrite decide_False; [done|]. by intros [?|?]%elem_of_cons.
Qed.

Section render_page.
Variable dom : string → option Rect.
Variable containerRect : Rect.
Variable cwidth cheight : Q.
Variable random : nat → Q.

Lemma render_simulations pg :
  let st := mindgen dom containerRect cwidth cheight random (tree pg) in
  let pg' := render dom containerRect cwidth cheight random pg in
  latest pg' = length (simulations pg) ∧
  (∀ c', c' < length (simulations pg) →
         simulations pg' !! c' = simulations pg !! c') ∧
  simulations pg' !! latest pg'
  = Some (mkSimulation (nodes st) ∅ (8 # 10) 0 true).
Proof.
  intros st pg'.
  assert (Hl : latest pg' = length (simulations pg)).
  { unfold latest, pg', render. simpl. rewrite length_app. simpl. lia. }
  split; [exact Hl|]. split.
  - intros c' Hc'. unfold pg', render. simpl. by rewrite lookup_app_l.
  - rewrite Hl. unfold pg', render. simpl.
    by rewrite lookup_app_r, Nat.sub_diag.
Qed.

(** X16.  Which simulation the listeners reach after a render.  A call
    of [mindgen] adds a simulation, with energy 0.8, and leaves the
    earlier ones as they are.  An element that was there before keeps
    the call that created it, a node without element gets an element
    created by this call, and the nodes of this call are bound to the
    elements.  So a double-click or the start of a drag on an element
    that was there before frees or fixes the node of the last call, but
    sets the energy (0.4) or the energy target (0.3) of the earlier
    simulation: the last simulation, the one moving the node, keeps
    energy 0.8 and target 0.  On an element created by this call the
    listeners reach the last simulation. *)
Theorem listeners_after_render (pg : Page) :
  creators_ok pg →
  let st := mindgen dom containerRect cwidth cheight random (tree pg) in
  let pg' := render dom containerRect cwidth cheight random pg in
  let new := length (simulations pg) in
  (latest pg' = new ∧ tree pg' = tree pg ∧
   (∀ c', c' < new → simulations pg' !! c' = simulations pg !! c') ∧
   simulations pg' !! new = Some (mkSimulation (nodes st) ∅ (8 # 10) 0 true) ∧
   (∀ j, bound pg' j = nodes st !! j)) ∧
  (∀ i, elements pg' !! i
        = if decide (i ∈ Sim.id <$> nodes st)
          then Some (default new (elements pg !! i)) else None) ∧
  creators_ok pg' ∧
  (∀ i c j n,
     elements pg !! i = Some c →
     list_find (λ n, Sim.id n = i) (nodes st) = Some (j, n) →
     let released := on_element i on_node_dblclick pg' in
     let started := on_element i (dragstarted 0) pg' in
     c < new ∧
     bound released j = Some (fix_at n None None) ∧
     energy <$> simulations released !! new = Some ((8 # 10)%Q, 0%Q, true) ∧
     energy <$> simulations released !! c
     = (λ s, ((4 # 10)%Q, sim_alphaTarget s, true)) <$> simulations pg !! c ∧
     bound started j = Some (fix_at n (Some (Sim.x n)) (Some (Sim.y n))) ∧
     energy <$> simulations started !! new = Some ((8 # 10)%Q, 0%Q, true) ∧
     energy <$> simulations started !! c
     = (λ s, (sim_alpha s, (3 # 10)%Q, true)) <$> simulations pg !! c) ∧
  (∀ i j n,
     elements pg !! i = None →
     list_find (λ n, Sim.id n = i) (nodes st) = Some (j, n) →
     energy <$> simulations (on_element i on_node_dblclick pg') !! new
     = Some ((4 # 10)%Q, 0%Q, true) ∧
     energy <$> simulations (on_element i (dragstarted 0) pg') !! new
     = Some ((8 # 10)%Q, (3 # 10)%Q, true)).
Proof.
  intros Hok st pg' new.
  destruct (render_simulations pg) as (Hl & Hold & Hnew).
  fold st pg' in Hl, Hold, Hnew. fold new in Hl, Hold. rewrite Hl in Hnew.
  assert (Hbound : ∀ j, bound pg' j = nodes st !! j).
  { intros j. unfold bound. by rewrite Hl, Hnew. }
  assert (Hel : ∀ i, elements pg' !! i
                     = if decide (i ∈ Sim.id <$> nodes st)
                       then Some (default new (elements pg !! i)) else None).
  { intros i. apply join_lookup. }
  assert (Hin : ∀ i j n, list_find (λ n, Sim.id n = i) (nodes st) = Some (j, n) →
                  nodes st !! j = Some n ∧ i ∈ Sim.id <$> nodes st).
  { intros i j n (Hj & Hi & _)%list_find_Some. split; [done|].
    apply list_elem_of_fmap. exists n. split; [done|].
    by eapply list_elem_of_lookup_2. }
  assert (Hon : ∀ i j n listener,
            list_find (λ n, Sim.id n = i) (nodes st) = Some (j, n) →
            on_element i listener pg'
            = listener (default new (elements pg !! i)) j pg').
  { intros i j n listener Hf. destruct (Hin i j n Hf) as [_ Hi].
    unfold on_element. rewrite Hel, decide_True by done.
    rewrite Hl, Hnew. cbn [sim_nodes]. by rewrite Hf. }
  split_and!; try done.
  - intros i c. rewrite Hel. destruct (decide _); [|done].
    intros [= <-]. unfold pg', render. simpl. rewrite length_app. simpl.
    destruct (elements pg !! i) as [c|] eqn:Hc; simpl; [|lia].
    specialize (Hok i c Hc). lia.
  - intros i c j n Hc Hf released started.
    destruct (Hin i j n Hf) as [Hj _].
    assert (Hlt : c < new) by (by apply (Hok i c)).
    assert (Hb : bound pg' j = Some n) by (by rewrite Hbound).
    unfold released, started. rewrite !(Hon i j n _ Hf), Hc. simpl.
    destruct (on_node_dblclick_writes c j pg' n Hb) as (_ & B & E & _).
    destruct (dragstarted_writes 0 c j pg' n Hb) as (_ & B' & E' & _).
    split_and!; [done | done | | | done | |].
    + rewrite E, Hnew. simpl. rewrite bool_decide_false; [done | lia].
    + rewrite E, Hold by done. destruct (simulations pg !! c); [|done].
      simpl. by rewrite bool_decide_true.
    + rewrite E', Hnew. simpl. rewrite bool_decide_false; [done | lia].
    + rewrite E', Hold by done. destruct (simulations pg !! c); [|done].
      simpl. by rewrite bool_decide_true.
  - intros i j n Hc Hf.
    destruct (Hin i j n Hf) as [Hj _].
    assert (Hb : bound pg' j = Some n) by (by rewrite Hbound).
    rewrite !(Hon i j n _ Hf), Hc. simpl.
    destruct (on_node_dblclick_writes new j pg' n Hb) as (_ & _ & E & _).
    destruct (dragstarted_writes 0 new j pg' n Hb) as (_ & _ & E' & _).
    rewrite E, E', Hnew. simpl. by rewrite !bool_decide_true.
Qed.
End render_page.

(** After the click that expands [b], a double-click on [b], an element
    of the first call, sets the energy of the first simulation; the one
    made by the click keeps 0.8. *)
Lemma listeners_after_render_witness :
  energy <$> simulations (on_element "b" on_node_dblclick expanded_page) !! 1
  = Some ((8 # 10)%Q, 0%Q, true) ∧
  energy <$> simulations (on_element "b" on_node_dblclick expanded_page) !! 0
  = Some ((4 # 10)%Q, 0%Q, true) ∧
  energy <$> simulations (on_element "b" (dragstarted 0) expanded_page) !! 1
  = Some ((8 # 10)%Q, 0%Q, true) ∧
  energy <$> simulations (on_element "b" (dragstarted 0) expanded_page) !! 0
  = Some ((8 # 10)%Q, (3 # 10)%Q, true).
Proof.
  set (first := first_render (λ _, None) (mkRect 0 0 800 600) 800 600
                             (λ _, 1 # 2) hidden_pin_tree).
  set (pg := mkPage (update_at [0] toggle (tree first)) (simulations first)
                    (elements first)).
  assert (Hok : creators_ok pg).
  { intros i c. unfold pg, first, first_render, render. simpl.
    rewrite join_lookup. destruct (decide _); [|done]. intros [= <-].
    rewrite lookup_empty. simpl. lia. }
  destruct (listeners_after_render (λ _, None) (mkRect 0 0 800 600) 800 600
              (λ _, 1 # 2) pg Hok) as (_ & _ & _ & Hstale & _).
  destruct (Hstale "b" 0 1 _ eq_refl eq_refl)
    as (_ & _ & R1 & R0 & _ & S1 & S0).
  split_and!; [exact R1 | exact R0 | exact S1 | exact S0].
Defined.

(** ** Clamping at every tick *)

Lemma Qle_bool_false (a b : Q) : Qle_bool a b = false ↔ (b < a)%Q.
Proof.
  rewrite <- not_true_iff_false, Qle_bool_iff.
  split; [apply Qnot_le_lt | apply Qlt_not_le].
Qed.

Lemma clamp_spec (lo hi v : Q) :
  let c := Math_max lo (Math_min hi v) in
  (lo <= c)%Q ∧
  ((lo <= hi)%Q → (c <= hi)%Q) ∧
  ((lo <= v)%Q → (v <= hi)%Q → (c == v)%Q) ∧
  ((v <= lo)%Q → (c == lo)%Q) ∧
  ((lo <= hi)%Q → (hi <= v)%Q → (c == hi)%Q) ∧
  ((hi < lo)%Q → (c == lo)%Q).
Proof.
  unfold Math_max, Math_min.
  destruct (Qle_bool hi v) eqn:E1;
    [apply Qle_bool_iff in E1 | apply Qle_bool_false in E1].
  - destruct (Qle_bool lo hi) eqn:E2;
      [apply Qle_bool_iff in E2 | apply Qle_bool_false in E2];
      split_and!; intros; lra.
  - destruct (Qle_bool lo v) eqn:E2;
      [apply Qle_bool_iff in E2 | apply Qle_bool_false in E2];
      split_and!; intros; lra.
Qed.

(** X11.  At every tick a node is clamped into the container.  The left
    and top edges given to its element are never less than the padding.
    When the box fits (its width plus twice the padding is at most the
    width of the container, and likewise for the height) the right and
    bottom edges stay within the container less the padding, and a node
    that is already inside is not moved.  When the box does not fit, the
    lower bound wins: the element sits at the padding and overflows on the
    far side.  Clamping changes nothing but [x] and [y], and clamping
    twice is clamping once. *)
Theorem positionNode_bounds (cwidth cheight pad : Q) (rect : Rect) (n : Sim.node) :
  let r := positionNode cwidth cheight pad rect n in
  let n' := r.1 in
  let l := r.2.1 in
  let t := r.2.2 in
  frame n' = frame n ∧
  ((pad <= l)%Q ∧ (pad <= t)%Q) ∧
  ((width rect + 2 * pad <= cwidth)%Q → (l + width rect <= cwidth - pad)%Q) ∧
  ((height rect + 2 * pad <= cheight)%Q → (t + height rect <= cheight - pad)%Q) ∧
  ((pad <= Sim.x n - width rect / 2)%Q →
   (Sim.x n + width rect / 2 <= cwidth - pad)%Q → (Sim.x n' == Sim.x n)%Q) ∧
  ((pad <= Sim.y n - height rect / 2)%Q →
   (Sim.y n + height rect / 2 <= cheight - pad)%Q → (Sim.y n' == Sim.y n)%Q) ∧
  ((cwidth < width rect + 2 * pad)%Q → (l == pad)%Q) ∧
  ((cheight < height rect + 2 * pad)%Q → (t == pad)%Q) ∧
  (Sim.x (positionNode cwidth cheight pad rect n').1 == Sim.x n')%Q ∧
  (Sim.y (positionNode cwidth cheight pad rect n').1 == Sim.y n')%Q.
Proof.
  intros r n' l t. unfold l, t, n', r, positionNode. cbn [fst snd Sim.x Sim.y].
  set (lx := (width rect / 2 + pad)%Q). set (hx := (cwidth - width rect / 2 - pad)%Q).
  set (ly := (height rect / 2 + pad)%Q). set (hy := (cheight - height rect / 2 - pad)%Q).
  destruct (clamp_spec lx hx (Sim.x n)) as (X1 & X2 & X3 & X4 & X5 & X6).
  destruct (clamp_spec ly hy (Sim.y n)) as (Y1 & Y2 & Y3 & Y4 & Y5 & Y6).
  set (cx := Math_max lx (Math_min hx (Sim.x n))) in *.
  set (cy := Math_max ly (Math_min hy (Sim.y n))) in *.
  destruct (clamp_spec lx hx cx) as (_ & _ & X3' & X4' & _ & _).
  destruct (clamp_spec ly hy cy) as (_ & _ & Y3' & Y4' & _ & _).
  unfold lx, hx, ly, hy in *. clear lx hx ly hy.
  split; [done|]. clearbody cx cy.
  unfold Qdiv in *. change (/ 2)%Q with (1 # 2)%Q in *.
  split; [split; lra|].
  split; [intros; assert (cx <= cwidth - width rect * (1 # 2) - pad)%Q
                    by (apply X2; lra); lra|].
  split; [intros; assert (cy <= cheight - height rect * (1 # 2) - pad)%Q
                    by (apply Y2; lra); lra|].
  split; [intros; apply X3; lra|].
  split; [intros; apply Y3; lra|].
  split; [intros; assert (cx == width rect * (1 # 2) + pad)%Q
                    by (apply X6; lra); lra|].
  split; [intros; assert (cy == height rect * (1 # 2) + pad)%Q
                    by (apply Y6; lra); lra|].
  split.
  - destruct (Qlt_le_dec (cwidth - width rect * (1 # 2) - pad)
                         (width rect * (1 # 2) + pad)).
    + assert (cx == width rect * (1 # 2) + pad)%Q as Hc by (apply X6; lra).
      rewrite X4' by lra. by rewrite Hc.
    + apply X3'; [lra | apply X2; lra].
  - destruct (Qlt_le_dec (cheight - height rect * (1 # 2) - pad)
                         (height rect * (1 # 2) + pad)).
    + assert (cy == height rect * (1 # 2) + pad)%Q as Hc by (apply Y6; lra).
      rewrite Y4' by lra. by rewrite Hc.
    + apply Y3'; [lra | apply Y2; lra].
Qed.

(** A box of 20 by 1000 in a container of 800 by 600 with padding 10: it
    fits on x and not on y. *)
Lemma positionNode_bounds_witness :
  let r := positionNode 800 600 10 (mkRect 0 0 20 1000) (sample_node "a" 900 5) in
  (20 + 2 * 10 <= 800)%Q ∧ (600 < 1000 + 2 * 10)%Q ∧
  (r.2.1 + 20 <= 800 - 10)%Q ∧ (r.2.2 == 10)%Q.
Proof.
  intros r. split; [by vm_compute|]. split; [by vm_compute|].
  destruct (positionNode_bounds 800 600 10 (mkRect 0 0 20 1000)
              (sample_node "a" 900 5))
    as (_ & _ & Hfit & _ & _ & _ & _ & Hover & _).
  split; [apply Hfit; by vm_compute | apply Hover; by vm_compute].
Defined.

(** ** The ids given to the nodes *)

#[local] Instance node_fallback_inj : Inj (=) (=) (λ j : nat, "node-" +:+ pretty j).
Proof.
  intros j k H. simpl in H. apply (inj pretty). by simplify_eq.
Qed.

Section id_facts.
Variable dom : string → option Rect.
Variable containerRect : Rect.
Variable cwidth cheight : Q.
Variable random : nat → Q.

(** X12.  The ids under which a render looks up and creates the elements.
    When no flattened datum has an id (absent or empty), the nodes get
    [node-0], [node-1], ... in the order of the flattening, all distinct.
    When every flattened datum has a non-empty id, every node gets the id
    of its datum.  The two rules can collide: a datum without id at index
    [j] and a datum whose own id is [node-j] give two nodes with the same
    id. *)
Theorem node_ids (hierarchyData : Node) :
  let st := mindgen dom containerRect cwidth cheight random hierarchyData in
  ((∀ h, h ∈ descendants hierarchyData →
         id (data h) = None ∨ id (data h) = Some "") →
   Sim.id <$> nodes st
   = (λ j, "node-" +:+ pretty j) <$> seq 0 (length (descendants hierarchyData)) ∧
   NoDup (Sim.id <$> nodes st)) ∧
  ((∀ h, h ∈ descendants hierarchyData →
         ∃ s, id (data h) = Some s ∧ s ≠ "") →
   Some <$> (Sim.id <$> nodes st) = (λ h, id (data h)) <$> descendants hierarchyData) ∧
  (∀ j k h1 h2 n1 n2,
     descendants hierarchyData !! j = Some h1 →
     descendants hierarchyData !! k = Some h2 →
     id (data h1) = None → id (data h2) = Some ("node-" +:+ pretty j) →
     nodes st !! j = Some n1 → nodes st !! k = Some n2 →
     Sim.id n1 = Sim.id n2).
Proof.
  intros st.
  destruct (mindgen_nodes dom containerRect cwidth cheight random hierarchyData)
    as (_ & _ & _ & _ & Hlen & Hnodes). fold st in Hlen, Hnodes.
  split_and!.
  - intros Hno.
    assert (E : Sim.id <$> nodes st
                = (λ j, "node-" +:+ pretty j)
                    <$> seq 0 (length (descendants hierarchyData))).
    { apply list_eq. intros j. rewrite !list_lookup_fmap.
      destruct (nodes st !! j) as [n|] eqn:Hn; simpl.
      - destruct (Hnodes j n Hn) as (h & Hh & _ & _ & Hid & _).
        rewrite lookup_seq_lt by (by eapply lookup_lt_Some). simpl.
        rewrite Hid. unfold node_id.
        destruct (Hno h) as [-> | ->]; [by eapply list_elem_of_lookup_2|done..].
      - apply lookup_ge_None in Hn. rewrite lookup_seq_ge; [done|lia]. }
    split; [exact E|]. rewrite E. apply NoDup_fmap_2; [apply _|apply NoDup_seq].
  - intros Hall. apply list_eq. intros j. rewrite !list_lookup_fmap.
    destruct (nodes st !! j) as [n|] eqn:Hn; simpl.
    + destruct (Hnodes j n Hn) as (h & Hh & _ & _ & Hid & _).
      rewrite Hh. simpl. rewrite Hid. unfold node_id.
      destruct (Hall h) as (s & -> & Hs); [by eapply list_elem_of_lookup_2|].
      by rewrite bool_decide_false.
    + apply lookup_ge_None in Hn. rewrite lookup_ge_None_2; [done|lia].
  - intros j k h1 h2 n1 n2 H1 H2 Hi1 Hi2 Hn1 Hn2.
    destruct (Hnodes j n1 Hn1) as (h1' & Hh1 & _ & _ & -> & _).
    destruct (Hnodes k n2 Hn2) as (h2' & Hh2 & _ & _ & -> & _).
    rewrite H1 in Hh1. rewrite H2 in Hh2. injection Hh1 as <-. injection Hh2 as <-.
    unfold node_id. rewrite Hi1, Hi2. by rewrite bool_decide_false.
Qed.
End id_facts.

(** A tree without ids: the three nodes are [node-0], [node-1], [node-2]. *)
Lemma node_ids_witness :
  let T := mkNode None "X" false
             (Some [mkNode None "A" false None None;
                    mkNode (Some "") "B" false None None]) None in
  Sim.id <$> nodes (mindgen (λ _, None) (mkRect 0 0 800 600) 800 600 (λ _, 1 # 2) T)
  = ["node-0"; "node-1"; "node-2"].
Proof.
  intros T.
  destruct (node_ids (λ _, None) (mkRect 0 0 800 600) 800 600 (λ _, 1 # 2) T)
    as (H & _).
  refine (proj1 (H _)). intros h Hh.
  apply list_elem_of_In in Hh. simpl in Hh.
  destruct Hh as [<-|[<-|[<-|[]]]]; simpl; auto.
Defined.

(** ** Building the tree from a parsed list *)

Lemma Item_ind' (P : Item → Prop)
    (Hitem : ∀ toks,
        (∀ ts its, toks = Some ts → first_list ts = Some (Some its) →
                   Forall P its) →
        P (mkItem toks)) :
  ∀ item, P item.
Proof.
  fix IH 1. intros [toks]. apply Hitem.
  destruct toks as [ts0|]; [|done].
  assert (H0 : ∀ its, first_list ts0 = Some (Some its) → Forall P its).
  { induction ts0 as [|t ts0 IHts]; [done|].
    destruct t as [?|? ?|[its'|]|]; simpl; try exact IHts; [|done].
    intros its [= <-]. clear IHts.
    induction its' as [|it its' IHits]; constructor; [apply IH | exact IHits]. }
  intros ts its [= <-]. apply H0.
Qed.

Lemma tree_ids_unfold (d : Node) :
  tree_ids d =
  id d :: concat (tree_ids <$> arr (children d))
       ++ concat (tree_ids <$> arr (_children d)).
Proof.
  assert (Hgo : ∀ l,
    (fix go (l : list Node) : list (option string) :=
       match l with [] => [] | c :: l' => tree_ids c ++ go l' end) l
    = concat (tree_ids <$> l)).
  { induction l as [|c l IHl]; [done|]. csimpl. by rewrite IHl. }
  destruct d as [i t p [cs|] [hs|]]; simpl; by rewrite ?Hgo.
Qed.

Lemma fresh_unfold (d : Node) :
  fresh d ↔ pinned d = false ∧ _children d = None ∧
            Forall fresh (arr (children d)).
Proof.
  assert (Hall : ∀ l,
    (fix all (l : list Node) : Prop :=
       match l with [] => True | c :: l' => fresh c ∧ all l' end) l
    ↔ Forall fresh l).
  { induction l as [|c l IHl]; [by split; [constructor|] |].
    rewrite Forall_cons, <- IHl. reflexivity. }
  destruct d as [i t p [cs|] hs]; simpl; rewrite ?Hall, ?Forall_nil; tauto.
Qed.

Lemma fresh_inv (d : Node) : fresh d → inv d.
Proof.
  induction d as [i t p c h IHc _] using Node_ind'.
  rewrite fresh_unfold, inv_unfold. simpl. intros (_ & -> & Hc).
  split_and!; [by right | | constructor].
  rewrite Forall_forall in IHc, Hc. apply Forall_forall. intros x Hx.
  apply IHc; [done | by apply Hc].
Qed.

Lemma ids_from_app a n m : ids_from a n ++ ids_from (a + n) m = ids_from a (n + m).
Proof. unfold ids_from. by rewrite <- fmap_app, <- seq_app. Qed.

Lemma NoDup_ids_from a n : NoDup (ids_from a n).
Proof.
  unfold ids_from. apply NoDup_fmap_2; [|apply NoDup_seq].
  intros j k H. apply (inj pretty). simpl in H. by simplify_eq.
Qed.

Section processListItem_facts.
Variable trim : string → string.
Variable parseInline : string → string.

Lemma processListItem_unfold toks c :
  processListItem trim parseInline (mkItem toks) c =
  let node ch :=
    mkNode (Some ("node-" +:+ pretty (S c)))
           (parseInline (str_or (Some (default "" (raw_of trim <$> toks))) "Untitled"))
           false ch None in
  match toks ≫= first_list with
  | Some (Some its) =>
      (node (Some (map_items trim parseInline its (S c)).1),
       (map_items trim parseInline its (S c)).2)
  | _ => (node None, S c)
  end.
Proof.
  assert (Hmap : ∀ its k,
    (fix map (l : list Item) (c : nat) : list Node * nat :=
       match l with
       | [] => ([], c)
       | it :: l' =>
           let '(n, c1) := processListItem trim parseInline it c in
           let '(ns, c2) := map l' c1 in
           (n :: ns, c2)
       end) its k = map_items trim parseInline its k).
  { induction its as [|it its IH]; intros k; simpl; [done|].
    destruct (processListItem trim parseInline it k) as [n c1].
    by rewrite IH. }
  destruct toks as [ts|]; simpl; [|done].
  generalize (raw_of trim ts). intros r.
  induction ts as [|t ts IH]; simpl; [done|].
  destruct t as [?|? ?|[its|]|]; simpl; try apply IH; [|done].
  rewrite Hmap. by destruct (map_items trim parseInline its (S c)).
Qed.

Lemma processListItem_spec (item : Item) : ∀ c,
  let r := processListItem trim parseInline item c in
  id r.1 = Some ("node-" +:+ pretty (S c)) ∧
  c < r.2 ∧
  tree_ids r.1 = ids_from (S c) (r.2 - c) ∧
  fresh r.1.
Proof.
  induction item as [toks IH] using Item_ind'. intros c.
  rewrite processListItem_unfold. cbv zeta.
  destruct (toks ≫= first_list) as [[its|]|] eqn:Hfirst; cbn [fst snd];
    try (rewrite tree_ids_unfold, fresh_unfold; simpl;
         replace (S c - c) with 1 by lia; split_and!; done || lia).
  destruct toks as [ts|]; [|done]. simpl in Hfirst.
  specialize (IH ts its eq_refl Hfirst).
  assert (Hitems : ∀ k,
    let m := map_items trim parseInline its k in
    k ≤ m.2 ∧ concat (tree_ids <$> m.1) = ids_from (S k) (m.2 - k) ∧
    Forall fresh m.1).
  { clear Hfirst. induction IH as [|it its Hit _ IHits]; intros k; simpl.
    - replace (k - k) with 0 by lia. by split_and!.
    - destruct (Hit k) as (_ & Hlt & Hids & Hfresh).
      destruct (processListItem trim parseInline it k) as [n c1].
      cbn [fst snd] in *.
      destruct (IHits c1) as (Hle & Hids' & Hfresh').
      destruct (map_items trim parseInline its c1) as [ns c2].
      cbn [fst snd] in *.
      split_and!; [lia | | by constructor].
      rewrite fmap_cons. cbn [concat]. rewrite Hids, Hids'.
      replace (S c1) with (S k + (c1 - k)) by lia. rewrite ids_from_app.
      f_equal. lia. }
  destruct (Hitems (S c)) as (Hle & Hids & Hfresh).
  rewrite tree_ids_unfold, fresh_unfold. simpl.
  split_and!; [done | lia | | done | done | done].
  rewrite app_nil_r, Hids.
  change (Some ("node-" +:+ pretty (S c)) :: ids_from (S (S c)) ?n)
    with (ids_from (S c) 1 ++ ids_from (S (S c)) n).
  replace (S (S c)) with (S c + 1) by lia. rewrite ids_from_app.
  f_equal. lia.
Qed.

(** X13.  The ids made by [processListItem].  With the counter at [c], an
    item becomes a node with id [node-(c+1)]; the nodes of its subtree get
    the ids that follow, one per node in the order node-before-children,
    and the counter ends at the last id given.  So the ids are pairwise
    distinct (the first item of a build, made with the counter at 0, is
    [node-1]).  The tree is made expanded: nothing pinned, no [_children],
    so it satisfies the invariant of the data model. *)
Theorem processListItem_ids (item : Item) (c : nat) :
  let r := processListItem trim parseInline item c in
  id r.1 = Some ("node-" +:+ pretty (S c)) ∧
  c < r.2 ∧
  tree_ids r.1 = ids_from (S c) (r.2 - c) ∧
  length (tree_ids r.1) = r.2 - c ∧
  NoDup (tree_ids r.1) ∧
  fresh r.1 ∧ inv r.1.
Proof.
  intros r. destruct (processListItem_spec item c) as (Hid & Hlt & Hids & Hf).
  fold r in Hid, Hlt, Hids, Hf.
  split_and!; try done.
  - rewrite Hids. unfold ids_from. by rewrite length_fmap, length_seq.
  - rewrite Hids. apply NoDup_ids_from.
  - by apply fresh_inv.
Qed.
End processListItem_facts.

Section build_facts.
Variable trim : string → string.
Variable parseInline : string → string.

Lemma map_items_spec (its : list Item) : ∀ k,
  let m := map_items trim parseInline its k in
  k ≤ m.2 ∧ length m.1 = length its ∧
  concat (tree_ids <$> m.1) = ids_from (S k) (m.2 - k) ∧
  Forall fresh m.1.
Proof.
  induction its as [|it its IHits]; intros k; simpl.
  - replace (k - k) with 0 by lia. by split_and!.
  - destruct (processListItem_spec trim parseInline it k) as (_ & Hlt & Hids & Hfresh).
    destruct (processListItem trim parseInline it k) as [n c1].
    cbn [fst snd] in *.
    destruct (IHits c1) as (Hle & Hlen & Hids' & Hfresh').
    destruct (map_items trim parseInline its c1) as [ns c2].
    cbn [fst snd] in *.
    split_and!; [lia | simpl; lia | | by constructor].
    rewrite fmap_cons. cbn [concat]. rewrite Hids, Hids'.
    replace (S c1) with (S k + (c1 - k)) by lia. rewrite ids_from_app.
    f_equal. lia.
Qed.

Lemma root_not_in_ids_from a n : Some "root" ∉ ids_from a n.
Proof.
  unfold ids_from. intros (k & H & _)%list_elem_of_fmap. simpl in H. discriminate H.
Qed.

(** X14.  Each streamed chunk rebuilds the children of the one [hierarchy]
    object ([nodeIdCounter = 0; hierarchy.children =
    firstList.items.map(processListItem)]).  The root keeps its [id],
    [text], [pinned] and [_children]; its children are one fresh tree per
    list item (nothing pinned or collapsed in them, whatever the trees of
    the previous chunk held), with the ids [node-1], [node-2], ... in the
    order node-before-children, none of them [root].  The root is never
    collapsed afterwards.  The data-model invariant holds of the result
    exactly when the root had no [_children]: a root collapsed before the
    chunk arrives ends with both fields present.  A second build replaces
    the first. *)
Theorem build_rebuilds (h : Node) (items items' : list Item) :
  let t := build trim parseInline h items in
  id t = id h ∧ text t = text h ∧ pinned t = pinned h ∧
  _children t = _children h ∧
  (∃ cs n, children t = Some cs ∧ length cs = length items ∧
           Forall fresh cs ∧ Forall inv cs ∧
           concat (tree_ids <$> cs) = ids_from 1 n ∧
           NoDup (concat (tree_ids <$> cs)) ∧
           Some "root" ∉ concat (tree_ids <$> cs)) ∧
  isCollapsed t = false ∧
  (inv_node t ↔ _children h = None) ∧
  (inv t ↔ _children h = None ) ∧
  build trim parseInline t items' = build trim parseInline h items'.
Proof.
  intros t. subst t. unfold build.
  destruct (map_items_spec items 0) as (_ & Hlen & Hids & Hfresh).
  set (m := map_items trim parseInline items 0) in *.
  cbn [id text pinned children _children].
  split_and!; try done.
  - exists m.1, (m.2 - 0). rewrite Hids. split_and!; try done.
    + eapply Forall_impl; [exact Hfresh | apply fresh_inv].
    + apply NoDup_ids_from.
    + apply root_not_in_ids_from.
  - unfold inv_node. cbn [children _children]. split; [by intros [|] | by right].
  - rewrite inv_unfold. unfold inv_node. cbn [children _children arr default].
    split.
    + by intros ([|] & _).
    + intros ->. split_and!; [by right | | constructor].
      eapply Forall_impl; [exact Hfresh | apply fresh_inv].
Qed.
End build_facts.

(** ** The ids of a rendered build *)

Lemma elem_concat_lookup {A} (ls : list (list A)) : ∀ i l x,
  ls !! i = Some l → x ∈ l → x ∈ concat ls.
Proof.
  induction ls as [|l0 ls IH]; intros [|i] l x; simpl; try done.
  - intros [= ->] Hx. apply elem_of_app. by left.
  - intros Hi Hx. apply elem_of_app. right. by eapply IH.
Qed.

Lemma NoDup_concat_lookup {A} (ls : list (list A)) : ∀ i l,
  NoDup (concat ls) → ls !! i = Some l → NoDup l.
Proof.
  induction ls as [|l0 ls IH]; intros [|i] l; simpl; try done.
  - intros (H & _ & _)%NoDup_app [= ->]. done.
  - intros (_ & _ & H)%NoDup_app Hi. by eapply IH.
Qed.

Lemma NoDup_concat_disjoint {A} (ls : list (list A)) : ∀ i j l1 l2 x,
  NoDup (concat ls) → ls !! i = Some l1 → ls !! j = Some l2 →
  x ∈ l1 → x ∈ l2 → i = j.
Proof.
  induction ls as [|l0 ls IH]; intros [|i] [|j] l1 l2 x; simpl; try done.
  - intros (_ & Hd & _)%NoDup_app [= ->] Hj H1 H2.
    destruct (Hd x H1). by eapply elem_concat_lookup.
  - intros (_ & Hd & _)%NoDup_app Hi [= ->] H1 H2.
    destruct (Hd x H2). by eapply elem_concat_lookup.
  - intros (_ & _ & Hn)%NoDup_app Hi Hj H1 H2. f_equal. by eapply IH.
Qed.

Lemma node_at_id_in q : ∀ t n,
  node_at t q = Some n → id n ∈ tree_ids t.
Proof.
  induction q as [|k q IH]; intros t n; simpl.
  - intros [= ->]. rewrite tree_ids_unfold. by left.
  - destruct (arr (children t) !! k) as [c|] eqn:Hk; simpl; [|done].
    intros Hn%IH. rewrite tree_ids_unfold. right. apply elem_of_app. left.
    eapply elem_concat_lookup; [|exact Hn]. by rewrite list_lookup_fmap, Hk.
Qed.

(** In a tree whose reachable nodes have pairwise distinct ids, a node is
    found from its id. *)
Lemma node_at_inj q1 : ∀ t q2 n1 n2,
  NoDup (id t :: concat (tree_ids <$> arr (children t))) →
  node_at t q1 = Some n1 → node_at t q2 = Some n2 →
  id n1 = id n2 → q1 = q2.
Proof.
  assert (Hsub : ∀ t k c,
    NoDup (concat (tree_ids <$> arr (children t))) →
    arr (children t) !! k = Some c →
    NoDup (id c :: concat (tree_ids <$> arr (children c)))).
  { intros t k c Hnd Hk.
    assert (Hc : NoDup (tree_ids c)).
    { eapply NoDup_concat_lookup; [exact Hnd|].
      by rewrite list_lookup_fmap, Hk. }
    rewrite tree_ids_unfold in Hc.
    apply NoDup_cons in Hc as (Hhd & Htl).
    apply NoDup_app in Htl as (Htl & _ & _).
    apply NoDup_cons. split; [|done].
    intros Hin. apply Hhd, elem_of_app. by left. }
  assert (Hbelow : ∀ t k c q n,
    arr (children t) !! k = Some c → node_at c q = Some n →
    id n ∈ concat (tree_ids <$> arr (children t))).
  { intros t k c q n Hk Hn.
    apply (elem_concat_lookup _ k (tree_ids c));
      [by rewrite list_lookup_fmap, Hk | by eapply node_at_id_in]. }
  induction q1 as [|k1 q1 IH]; intros t [|k2 q2] n1 n2 Hnd; simpl; try done.
  - intros [= <-].
    destruct (arr (children t) !! k2) as [c|] eqn:Hk; simpl; [|done].
    intros Hn Hid. apply NoDup_cons in Hnd as (Hhd & _).
    destruct Hhd. rewrite Hid. by eapply Hbelow.
  - destruct (arr (children t) !! k1) as [c|] eqn:Hk; simpl; [|done].
    intros Hn [= <-] Hid. apply NoDup_cons in Hnd as (Hhd & _).
    destruct Hhd. rewrite <- Hid. by eapply Hbelow.
  - destruct (arr (children t) !! k1) as [c1|] eqn:Hk1; simpl; [|done].
    destruct (arr (children t) !! k2) as [c2|] eqn:Hk2; simpl; [|done].
    intros Hn1 Hn2 Hid. apply NoDup_cons in Hnd as (_ & Hnd).
    assert (k1 = k2) as <-.
    { eapply (NoDup_concat_disjoint _ k1 k2 _ _ (id n1) Hnd).
      - by rewrite list_lookup_fmap, Hk1.
      - by rewrite list_lookup_fmap, Hk2.
      - by eapply node_at_id_in.
      - rewrite Hid. by eapply node_at_id_in. }
    rewrite Hk1 in Hk2. injection Hk2 as <-. f_equal.
    eapply IH; [|exact Hn1|exact Hn2|exact Hid]. by eapply Hsub.
Qed.

Lemma ids_from_nonempty a n x : x ∈ ids_from a n → ∃ s, x = Some s ∧ s ≠ "".
Proof.
  unfold ids_from. intros (k & -> & _)%list_elem_of_fmap.
  eexists. split; [done|]. simpl. discriminate.
Qed.

Section build_render.
Variable trim : string → string.
Variable parseInline : string → string.
Variable dom : string → option Rect.
Variable containerRect : Rect.
Variable cwidth cheight : Q.
Variable random : nat → Q.

(** X15.  Rendering what the chat builds.  When the root object has the id
    [root] (as [hierarchy] has), every node of a render of
    [build hierarchy items] gets the id of its datum, never the fallback
    [node-<index>], and the ids of the nodes of the render are pairwise
    distinct, so every node has an element of its own. *)
Theorem build_render_ids (h : Node) (items : list Item) :
  id h = Some "root" →
  let t := build trim parseInline h items in
  let st := mindgen dom containerRect cwidth cheight random t in
  Some <$> (Sim.id <$> nodes st) = (λ w, id (data w)) <$> descendants t ∧
  NoDup (Sim.id <$> nodes st).
Proof.
  intros Hroot t st.
  destruct (map_items_spec trim parseInline items 0) as (_ & _ & Hids & _).
  assert (Ht : id t :: concat (tree_ids <$> arr (children t))
               = Some "root" :: ids_from 1 ((map_items trim parseInline items 0).2 - 0)).
  { rewrite <- Hids, <- Hroot. reflexivity. }
  clearbody t.
  assert (Hnd : NoDup (id t :: concat (tree_ids <$> arr (children t)))).
  { rewrite Ht. apply NoDup_cons. split;
      [apply root_not_in_ids_from | apply NoDup_ids_from]. }
  assert (Hne : ∀ w, w ∈ descendants t → ∃ s, id (data w) = Some s ∧ s ≠ "").
  { intros w Hw. apply elem_descendants, wraps_sound in Hw as (q & Hq & Hn & _).
    simpl in Hq. subst q.
    assert (Hin : id (data w) ∈ id t :: concat (tree_ids <$> arr (children t))).
    { destruct (path w) as [|k q] eqn:Hp; simpl in Hn.
      - injection Hn as <-. by left.
      - right. destruct (arr (children t) !! k) as [c|] eqn:Hk; simpl in Hn; [|done].
        apply (elem_concat_lookup _ k (tree_ids c));
          [by rewrite list_lookup_fmap, Hk | by eapply node_at_id_in]. }
    rewrite Ht in Hin. apply elem_of_cons in Hin as [->|Hin].
    - by eexists.
    - by eapply ids_from_nonempty. }
  destruct (mindgen_nodes dom containerRect cwidth cheight random t)
    as (_ & _ & _ & _ & Hlen & Hnodes). fold st in Hlen, Hnodes.
  assert (E : Some <$> (Sim.id <$> nodes st) = (λ w, id (data w)) <$> descendants t).
  { apply list_eq. intros j. rewrite !list_lookup_fmap.
    destruct (nodes st !! j) as [n|] eqn:Hn; simpl.
    - destruct (Hnodes j n Hn) as (w & Hw & _ & _ & Hid & _).
      rewrite Hw. simpl. rewrite Hid. unfold node_id.
      destruct (Hne w) as (s & -> & Hs); [by eapply list_elem_of_lookup_2|].
      by rewrite bool_decide_false.
    - apply lookup_ge_None in Hn. rewrite lookup_ge_None_2; [done|lia]. }
  split; [exact E|].
  apply (NoDup_fmap_1 Some). rewrite E.
  apply NoDup_alt. intros i j x. rewrite !list_lookup_fmap.
  destruct (descendants t !! i) as [w1|] eqn:H1; simpl; [|done].
  destruct (descendants t !! j) as [w2|] eqn:H2; simpl; [|done].
  intros [= E1] [= E2].
  pose proof (NoDup_descendants t) as Hp.
  eapply NoDup_alt; [exact Hp | | ].
  - by rewrite list_lookup_fmap, H1.
  - rewrite list_lookup_fmap, H2. simpl. f_equal.
    apply list_elem_of_lookup_2, elem_descendants, wraps_sound in H1
      as (q1 & Hq1 & Hn1 & _).
    apply list_elem_of_lookup_2, elem_descendants, wraps_sound in H2
      as (q2 & Hq2 & Hn2 & _).
    simpl in Hq1, Hq2. subst q1 q2. symmetry.
    eapply (node_at_inj _ t); [exact Hnd | exact Hn1 | exact Hn2 | congruence].
Qed.
End build_render.

(** The render of the sample build has four nodes with four ids. *)
Lemma build_render_ids_witness :
  NoDup (Sim.id <$> nodes (mindgen (λ _, None) (mkRect 0 0 800 600) 800 600
                             (λ _, 1 # 2)
                             (build (λ s, s) (λ s, s) hierarchy0 sample_items))).
Proof.
  exact (proj2 (build_render_ids (λ s, s) (λ s, s) (λ _, None)
                  (mkRect 0 0 800 600) 800 600 (λ _, 1 # 2)
                  hierarchy0 sample_items eq_refl)).
Defined.
